(** * quokka / determiner: random integers and strings from a byte source

    A shallow embedding of [packages/determiner/_generators.ts],
    [_format.ts] and [_source.ts], followed by the properties of the
    sampling and formatting engine.

    Conventions of the embedding
    - A [Uint8Array] is a view (offset, length) on a buffer of bytes, as in
      JavaScript; [new DataView(u.buffer)] sees the whole buffer.
    - A byte source is a closure with hidden state: a function from the
      requested length and its state to the array it returns and its next
      state.  A source may also fail.
    - Unbounded [while] loops take a fuel argument (the number of iterations
      of that loop which are allowed); [OutOfFuel] at every fuel is
      divergence.
    - The batch size of [format] is computed on IEEE doubles, as in the
      source, because its rounding shows in the result.  Elsewhere the code
      uses JavaScript numbers on integers below 2^53, where double
      arithmetic is exact: they are integers of [Z], rationals of [Q] for the
      possibly fractional arguments of [integer] and [integerLessThan], and
      [NaN]; the theorems on the value [integer] returns carry that bound
      as a hypothesis.
    - A string is the list of its code units.

    The file has three parts: the embedding, the vocabulary of the
    properties, and the properties. *)

From Stdlib Require Import Floats.
From Stdlib Require Uint63.
From Stdlib Require Import ZArith QArith Qround List Lia Bool Arith.
From Stdlib.Strings Require Import Ascii String Byte.
From Stdlib Require Import Permutation Sorted.
Import ListNotations.

Local Open Scope nat_scope.

(* ================================================================= *)
(** * The embedding *)

(** ** Outcomes and the state monad of a byte source *)

Inductive outcome (A : Type) : Type :=
| Ret (a : A)        (* normal completion *)
| RangeError         (* exception raised by a typed array or a DataView *)
| OutOfFuel.         (* the loop budget of the model is exhausted *)

Arguments Ret {A} a.
Arguments RangeError {A}.
Arguments OutOfFuel {A}.

(** A computation that may draw from a source whose state has type [St]. *)
Definition M (St A : Type) : Type := St -> outcome (A * St).

Definition ret {St A} (a : A) : M St A := fun s => Ret (a, s).

Definition bind {St A B} (m : M St A) (k : A -> M St B) : M St B :=
  fun s => match m s with
           | Ret (a, s') => k a s'
           | RangeError => RangeError
           | OutOfFuel => OutOfFuel
           end.

Definition throw {St A} : M St A := fun _ => RangeError.
Definition timeout {St A} : M St A := fun _ => OutOfFuel.

Declare Scope det_scope.
Delimit Scope det_scope with det.
Notation "x <- m ;; k" := (bind m (fun x => k))
  (at level 61, m at next level, right associativity) : det_scope.
Local Open Scope det_scope.

(* ================================================================= *)
(** ** Typed arrays and data views *)

Definition byteZ (b : byte) : Z := Z.of_N (Byte.to_N b).

(** Storing a number in a [Uint8Array] keeps it modulo 256. *)
Definition toUint8 (n : N) : byte :=
  match Byte.of_N (n mod 256)%N with Some b => b | None => x00 end.

Record Uint8Array : Type := mkUint8Array {
  buffer : list byte;      (* the underlying ArrayBuffer *)
  byteOffset : nat;
  byteLength : nat         (* = length, elements are bytes *)
}.

(** The elements the view gives access to. *)
Definition elements (u : Uint8Array) : list byte :=
  firstn (byteLength u) (skipn (byteOffset u) (buffer u)).

(** [new Uint8Array(len)] *)
Definition newUint8Array (len : nat) : Uint8Array :=
  mkUint8Array (repeat x00 len) 0 len.

(** A fresh array holding exactly the bytes [bs]
    ([new Uint8Array(len)] then filled). *)
Definition fromBytes (bs : list byte) : Uint8Array :=
  mkUint8Array bs 0 (List.length bs).

(** [u[i]], [None] for [undefined]. *)
Definition get (u : Uint8Array) (i : nat) : option byte :=
  nth_error (elements u) i.

(** [u.subarray(begin, end)]: a view on the same buffer. *)
Definition subarray (u : Uint8Array) (b e : nat) : Uint8Array :=
  let b' := Nat.min b (byteLength u) in
  let e' := Nat.min e (byteLength u) in
  mkUint8Array (buffer u) (byteOffset u + b') (e' - b').

(** [target.set(src, pos)]: copies the elements of [src]; a [RangeError]
    when they do not fit. *)
Definition set (target src : Uint8Array) (pos : nat) : outcome Uint8Array :=
  let data := elements src in
  if pos + List.length data <=? byteLength target then
    let k := byteOffset target + pos in
    Ret (mkUint8Array
           (firstn k (buffer target) ++ data
              ++ skipn (k + List.length data) (buffer target))
           (byteOffset target) (byteLength target))
  else RangeError.

(** Big-endian value of a sequence of bytes. *)
Definition bigEndian (bs : list byte) : Z :=
  fold_left (fun acc b => (acc * 256 + byteZ b)%Z) bs 0%Z.

(** [new DataView(buf).getUintN(off)] for N = 8 * w. *)
Definition getUint (w : nat) (buf : list byte) (off : nat) : outcome Z :=
  if off + w <=? List.length buf
  then Ret (bigEndian (firstn w (skipn off buf)))
  else RangeError.

Definition getUint8 := getUint 1.
Definition getUint16 := getUint 2.
Definition getUint32 := getUint 4.
Definition getBigUint64 := getUint 8.

(* ================================================================= *)
(** ** Byte sources (_source.ts) *)

(** [type RandomSource = (len: number) => Uint8Array], with the state the
    closure captures made explicit. *)
Definition RandomSource (St : Type) : Type := nat -> M St Uint8Array.

(** [mathRandomSource] and [webCryptoRandomSource] obtain their bytes from
    the environment; the functions below take such a source as an
    argument. *)

(** The source of the test-suite: [buffer[i] = i % 0x100], no state. *)
Definition stableRandomSource : RandomSource unit :=
  fun len => ret (fromBytes (map (fun i => toUint8 (N.of_nat i)) (seq 0 len))).

(** State captured by the closure of [batchedRandomSource]. *)
Record Batched (St : Type) : Type := mkBatched {
  batchBuffer : option Uint8Array;   (* [let buffer: Uint8Array | undefined] *)
  batchOffset : nat;                 (* [let offset = 0] *)
  baseState : St
}.
Arguments mkBatched {St}.
Arguments batchBuffer {St}.
Arguments batchOffset {St}.
Arguments baseState {St}.

Definition batchedInit {St} (s : St) : Batched St := mkBatched None 0 s.

Section BatchedRandomSource.
Context {St : Type} (source : RandomSource St) (batchSize : nat).

(** The [while (pos < len)] loop of the adapter. *)
Fixpoint batchedLoop (fuel len pos offset : nat) (buf result : Uint8Array)
  : M St (Uint8Array * Uint8Array * nat) :=
  if pos <? len then
    match fuel with
    | O => timeout
    | S fuel' =>
        let size := Nat.min (len - pos) (batchSize - offset) in
        match set result (subarray buf offset (offset + size)) pos with
        | Ret result' =>
            let pos' := pos + size in
            let offset' := offset + size in
            if offset' =? batchSize then
              buf' <- source batchSize ;;
              batchedLoop fuel' len pos' 0 buf' result'
            else batchedLoop fuel' len pos' offset' buf result'
        | RangeError => throw
        | OutOfFuel => timeout
        end
    end
  else ret (result, buf, offset).

(** [batchedRandomSource(source, batchSize)].  Every iteration of the loop
    copies at least one byte when [batchSize >= 1], so that [len]
    iterations are enough (lemma [batchedLoop_spec]); with [batchSize = 0]
    the loop makes no progress. *)
Definition batchedRandomSource : RandomSource (Batched St) :=
  fun len st =>
    let start : outcome (Uint8Array * St) :=
      match batchBuffer st with
      | Some b => Ret (b, baseState st)
      | None => source batchSize (baseState st)
      end in
    match start with
    | Ret (b, s) =>
        match batchedLoop len len 0 (batchOffset st) b (newUint8Array len) s with
        | Ret (result, b', offset', s') =>
            Ret (result, mkBatched (Some b') offset' s')
        | RangeError => RangeError
        | OutOfFuel => OutOfFuel
        end
    | RangeError => RangeError
    | OutOfFuel => OutOfFuel
    end.
End BatchedRandomSource.

(** [createSource] of the test-suite. *)
Definition createSource : RandomSource (Batched unit) :=
  batchedRandomSource stableRandomSource 1024.

(* ================================================================= *)
(** ** Fixed-width integers (_generators.ts) *)

Section Generators.
Context {St : Type} (source : RandomSource St).

Definition bytes (len : nat) : M St Uint8Array := source len.

Definition maxUint64 : Z := 18446744073709551615.
Definition uint64 : M St Z :=
  u <- source 8 ;;
  fun s => match getBigUint64 (buffer u) 0 with
           | Ret v => Ret (v, s) | RangeError => RangeError
           | OutOfFuel => OutOfFuel end.

Definition maxUInt32 : Z := 4294967296.
Definition uint32 : M St Z :=
  u <- source 4 ;;
  fun s => match getUint32 (buffer u) 0 with
           | Ret v => Ret (v, s) | RangeError => RangeError
           | OutOfFuel => OutOfFuel end.

Definition maxUint16 : Z := 65536.
Definition uint16 : M St Z :=
  u <- source 2 ;;
  fun s => match getUint16 (buffer u) 0 with
           | Ret v => Ret (v, s) | RangeError => RangeError
           | OutOfFuel => OutOfFuel end.

Definition maxUint8 : Z := 256.
Definition uint8 : M St Z :=
  u <- source 1 ;;
  fun s => match getUint8 (buffer u) 0 with
           | Ret v => Ret (v, s) | RangeError => RangeError
           | OutOfFuel => OutOfFuel end.

(* ----------------------------------------------------------------- *)
(** *** Bounded integers *)

(** A JavaScript number as these functions return it.  The numbers of the
    source are doubles; [Int z] stands for the double that holds the
    integer [z], which exists for every [z] from [- maxSafeInteger] to
    [maxSafeInteger]: within these bounds sums and differences of integers
    are exact, and it is within them that the integers computed below are
    the numbers the source computes. *)
Inductive number : Type :=
| Int (z : Z)
| NaN.

(** [Number.MAX_SAFE_INTEGER] *)
Definition maxSafeInteger : Z := 2 ^ 53 - 1.

Definition maxIntegerIter : nat := 100.

(** [Math.floor(maxUInt32 / range) * range].  For [range = 0] the quotient
    is [Infinity] and [Infinity * 0] is [NaN]; [Z.div] rounds down, like
    [Math.floor], also for a negative divisor. *)
Definition limit (range : Z) : number :=
  if (range =? 0)%Z then NaN else Int (maxUInt32 / range * range).

(** [sample < l]: false when [l] is [NaN]. *)
Definition lessThan (sample : Z) (l : number) : bool :=
  match l with Int z => (sample <? z)%Z | NaN => false end.

(** [sample % range]: the remainder has the sign of [sample]. *)
Definition remainder (sample range : Z) : number :=
  if (range =? 0)%Z then NaN else Int (Z.rem sample range).

(** The [do ... while] loop of [rejectionSampling]; [i] is its counter. *)
Fixpoint rejectionLoop (fuel i : nat) (range : Z) : M St Z :=
  match fuel with
  | O => timeout
  | S fuel' =>
      sample <- uint32 ;;
      if maxIntegerIter <=? i then ret sample   (* break *)
      else (* i++ *)
        if negb (lessThan sample (limit range))
        then rejectionLoop fuel' (S i) range
        else ret sample
  end.

(** The loop body runs at most [maxIntegerIter + 1] times, which is the
    fuel it gets (lemma [rejectionLoop_spec]). *)
Definition rejectionSampling (range : Z) : M St number :=
  sample <- rejectionLoop (S maxIntegerIter) 0 range ;;
  ret (remainder sample range).

(** [0, range) *)
Definition integerLessThan (range : Q) : M St number :=
  rejectionSampling (Qceiling range).

(** [l + r] for an integer [l]: the integer sum, which is the sum of the
    source as long as it stays within [maxSafeInteger] (beyond, the source
    returns the double closest to it). *)
Definition plus (l : Z) (r : number) : number :=
  match r with Int z => Int (l + z) | NaN => NaN end.

(** [min, max]; the defaults of the source are [min = 0] and
    [max = 65536].  [h - l + 1] and [l + r] are computed on integers: they
    are the numbers of the source for bounds within [maxSafeInteger], the
    hypothesis of the theorems on the value returned. *)
Definition integer (min max : Q) : M St number :=
  if Qle_bool min max then
    let l := Qceiling min in
    let h := Qfloor max in
    r <- integerLessThan (inject_Z (h - l + 1)) ;;
    ret (plus l r)
  else ret NaN.

(* ----------------------------------------------------------------- *)
(** *** Strings over an alphabet (_format.ts) *)

(** A string is its sequence of code units. *)
Definition str : Type := list ascii.

Definition str_eq_dec : forall a b : str, {a = b} + {a <> b} :=
  list_eq_dec ascii_dec.

Definition toInt32 (z : Z) : Z := ((z + 2 ^ 31) mod 2 ^ 32 - 2 ^ 31)%Z.
Definition toUint32 (z : Z) : Z := (z mod 2 ^ 32)%Z.

Definition clz32 (z : Z) : Z :=
  let x := toUint32 z in
  if (x =? 0)%Z then 32%Z else (31 - Z.log2 x)%Z.

(** [(2 << 31 - Math.clz32((alphabet.length - 1) | 1)) - 1] *)
Definition mask (alphabetLength : nat) : Z :=
  (toInt32
     (Z.shiftl 2
        (31 - clz32 (Z.lor (toInt32 (Z.of_nat alphabetLength - 1)) 1)))
   - 1)%Z.

(** The double that holds the integer [z] (sizes and masks are far below
    2^53, where the conversion is exact). *)
Definition toNumber (z : Z) : float :=
  if (z <? 0)%Z
  then PrimFloat.opp (PrimFloat.of_uint63 (Uint63.of_Z (- z)))
  else PrimFloat.of_uint63 (Uint63.of_Z z).

(** [Math.ceil(x)] as an integer; [None] when [x] is [NaN] or infinite. *)
Definition ceil (x : float) : option Z :=
  match Prim2SF x with
  | S754_zero _ => Some 0%Z
  | S754_finite s m e =>
      let n := if s then Z.neg m else Z.pos m in
      Some (if (0 <=? e)%Z then n * 2 ^ e else - (- n / 2 ^ (- e)))%Z
  | S754_infinity _ => None
  | S754_nan => None
  end.

(** [Math.ceil(1.6 * mask * size / alphabet.length)], on doubles as in the
    source: the result is not always the ceiling of the exact quotient
    (for "abc" and size 5 it is 9, not 8).  The literal is the double
    closest to 1.6.  For an empty alphabet the source computes [NaN] or
    [-Infinity] and [format] returns no string (it loops, or the source
    raises); here the batch is empty, and no string is returned either. *)
Definition step (mask : Z) (size alphabetLength : nat) : nat :=
  match ceil (0x1.999999999999ap+0 * toNumber mask
              * toNumber (Z.of_nat size)
              / toNumber (Z.of_nat alphabetLength))%float with
  | Some n => Z.to_nat n
  | None => 0
  end.

(** [alphabet[idx] || ""] *)
Definition charAt (alphabet : str) (idx : Z) : str :=
  if (idx <? 0)%Z then []
  else match nth_error alphabet (Z.to_nat idx) with
       | Some c => [c]
       | None => []
       end.

(** [bytes[i] & mask]; [undefined & mask] is [0]. *)
Definition maskedByte (bytes : Uint8Array) (i : nat) (mask : Z) : Z :=
  Z.land (match get bytes i with Some b => byteZ b | None => 0%Z end) mask.

(** The inner loop [let i = step; while (i--) { ... }]: [inl] when it
    returns the finished id, [inr] when the batch is used up. *)
Fixpoint scan (i : nat) (bytes : Uint8Array) (mask : Z) (alphabet : str)
  (size : nat) (id : str) : str + str :=
  match i with
  | O => inr id
  | S i' =>
      let id' := id ++ charAt alphabet (maskedByte bytes i' mask) in
      if List.length id' =? size then inl id'
      else scan i' bytes mask alphabet size id'
  end.

(** The outer loop [while (true)]. *)
Fixpoint formatLoop (fuel step : nat) (mask : Z) (alphabet : str)
  (size : nat) (id : str) : M St str :=
  match fuel with
  | O => timeout
  | S fuel' =>
      bytes <- source step ;;
      match scan step bytes mask alphabet size id with
      | inl id' => ret id'
      | inr id' => formatLoop fuel' step mask alphabet size id'
      end
  end.

Definition format (fuel : nat) (alphabet : str) (size : nat) : M St str :=
  let mask := mask (List.length alphabet) in
  let step := step mask size (List.length alphabet) in
  formatLoop fuel step mask alphabet size [].

(* ----------------------------------------------------------------- *)
(** *** Patterns *)

(** [string | readonly string[]] *)
Inductive Patterns : Type :=
| Single (alphabet : str)
| Multi (alphabets : list str).

(** [patterns.join("")] *)
Definition join (patterns : list str) : str := List.concat patterns.

(** [for (const subpattern of patterns) buf += format(random, subpattern, 1)] *)
Fixpoint onePerSubpattern (fuel : nat) (patterns : list str) (buf : str)
  : M St str :=
  match patterns with
  | [] => ret buf
  | subpattern :: rest =>
      c <- format fuel subpattern 1 ;;
      onePerSubpattern fuel rest (buf ++ c)
  end.

(** [positions.map(() => uint32(random))] *)
Fixpoint drawRandoms (positions : list nat) : M St (list Z) :=
  match positions with
  | [] => ret []
  | _ :: rest =>
      r <- uint32 ;;
      rs <- drawRandoms rest ;;
      ret (r :: rs)
  end.

(** [positions.sort((a, b) => randoms[a] - randoms[b])].  The comparator is
    a total preorder on the positions and [Array.prototype.sort] is stable,
    which determines the result: it is the one of a stable insertion sort. *)
Fixpoint insertSorted (randoms : list Z) (a : nat) (l : list nat) : list nat :=
  match l with
  | [] => [a]
  | b :: l' =>
      if (nth a randoms 0 <=? nth b randoms 0)%Z then a :: l
      else b :: insertSorted randoms a l'
  end.

Definition sortPositions (randoms : list Z) (positions : list nat) : list nat :=
  fold_right (insertSorted randoms) [] positions.

(** [sortedPositions.map((i) => chars[i]).join("")] *)
Definition pick (chars : str) (sortedPositions : list nat) : str :=
  flat_map (fun i => match nth_error chars i with
                     | Some c => [c]
                     | None => []
                     end) sortedPositions.

Definition pattern (fuel len : nat) (patterns : Patterns) : M St str :=
  match patterns with
  | Single alphabet => format fuel alphabet len
  | Multi alphabets =>
      if len <? List.length alphabets then
        format fuel (join alphabets) len
      else
        buf <- onePerSubpattern fuel alphabets [] ;;
        rest <- format fuel (join alphabets) (len - List.length alphabets) ;;
        let chars := buf ++ rest in
        let positions := seq 0 (List.length chars) in
        randoms <- drawRandoms positions ;;
        ret (pick chars (sortPositions randoms positions))
  end.

(* ----------------------------------------------------------------- *)
(** *** Unique patterns *)

(** [Set<string>], in insertion order. *)
Definition setHas (m : list str) (p : str) : bool :=
  if in_dec str_eq_dec p m then true else false.

Definition setAdd (m : list str) (p : str) : list str :=
  if setHas m p then m else m ++ [p].

(** The loop of the branch [if (existingPatterns)]. *)
Fixpoint uniqueLoopExisting (fuel count len : nat) (patterns : Patterns)
  (existingMap map : list str) : M St (list str) :=
  if List.length map <? count then
    match fuel with
    | O => timeout
    | S fuel' =>
        p <- pattern fuel len patterns ;;
        if setHas existingMap p
        then uniqueLoopExisting fuel' count len patterns existingMap map
        else
          q <- pattern fuel len patterns ;;
          uniqueLoopExisting fuel' count len patterns existingMap (setAdd map q)
    end
  else ret map.

(** The loop of the [else] branch. *)
Fixpoint uniqueLoop (fuel count len : nat) (patterns : Patterns)
  (map : list str) : M St (list str) :=
  if List.length map <? count then
    match fuel with
    | O => timeout
    | S fuel' =>
        q <- pattern fuel len patterns ;;
        uniqueLoop fuel' count len patterns (setAdd map q)
    end
  else ret map.

Definition uniquePatterns (fuel count len : nat) (patterns : Patterns)
  (existingPatterns : option (list str)) : M St (list str) :=
  match existingPatterns with
  | Some existing =>
      let existingMap := fold_left setAdd existing [] in
      uniqueLoopExisting fuel count len patterns existingMap []
  | None => uniqueLoop fuel count len patterns []
  end.

End Generators.

(** Alphabets of [_patterns.ts] used as default arguments. *)
Definition lowercaseAlphabet : str :=
  list_ascii_of_string "abcdefghijklmnopqrstuvwxyz".
Definition numberAlphabet : str := list_ascii_of_string "0123456789".
Definition lowercaseAlphabetNumber : Patterns :=
  Multi [lowercaseAlphabet; numberAlphabet].

(* ================================================================= *)
(** * Vocabulary of the properties *)

(** ** Sources *)

(** A computation with a loop budget diverges from state [s] when no
    budget is enough. *)
Definition diverges {St A} (run : nat -> M St A) (s : St) : Prop :=
  forall fuel, run fuel s = OutOfFuel.

(** A draw of [w] bytes from state [s] that yields the fresh array of the
    bytes [bs] and leaves the source in state [s']. *)
Definition draws {St} (source : RandomSource St) (w : nat) (s : St)
  (bs : list byte) (s' : St) : Prop :=
  source w s = Ret (fromBytes bs, s').

(** From every state that satisfies [Inv], a request for [len] bytes is
    answered with a fresh array of exactly [len] bytes, and [Inv] holds
    again. *)
Definition reliable {St} (Inv : St -> Prop) (source : RandomSource St) : Prop :=
  forall len s, Inv s ->
    exists bs s', draws source len s bs s' /\ List.length bs = len /\ Inv s'.

(** The first [k] 32-bit draws from the source. *)
Fixpoint samples {St} (source : RandomSource St) (k : nat) : M St (list Z) :=
  match k with
  | O => ret []
  | S k' =>
      v <- uint32 source ;;
      vs <- samples source k' ;;
      ret (v :: vs)
  end.

(** A source that reads a fixed infinite sequence of bytes, [len] at a
    time; its state is the position in the sequence. *)
Definition streamSource (f : nat -> byte) : RandomSource nat :=
  fun len pos => Ret (fromBytes (map f (seq pos len)), pos + len).

(** The cyclic sequence 0, 1, ..., 255, 0, 1, ... *)
Definition cyclic : RandomSource nat :=
  streamSource (fun i => toUint8 (N.of_nat i)).

(** The cyclic sequence again, read by a source whose state runs seven
    positions ahead. *)
Definition shifted : RandomSource nat :=
  streamSource (fun i => toUint8 (N.of_nat (i - 7))).

(** The source that only yields the byte 255. *)
Definition allOnes : RandomSource nat := streamSource (fun _ => xff).

(** The source that only yields the byte 0. *)
Definition zeros : RandomSource nat := streamSource (fun _ => x00).

(** A fixed sequence of bytes: six bytes that format to "aaaa" over
    "abcdefgh", then six bytes that format to "abcd" (a batch is read from
    its last byte to its first), then zeros. *)
Definition script : RandomSource nat :=
  streamSource
    (fun i => nth i [x00; x00; x00; x00; x00; x00;
                     x00; x00; x03; x02; x01; x00] x00).

(** A source that answers with a view at offset 2 of a larger buffer. *)
Definition viewSource : RandomSource unit :=
  fun len =>
    ret (subarray (fromBytes [x09; x09; x00; x00; x00; x01]) 2 (2 + len)).

(** A source that answers every request with an empty array. *)
Definition silent : RandomSource unit := fun _ => ret (newUint8Array 0).

(** ** The batching adapter *)

(** A view that lies within its buffer. *)
Definition wfView (u : Uint8Array) : Prop :=
  byteOffset u + byteLength u <= List.length (buffer u).

(** [serve adapter lens]: the successive answers of a source to requests of
    the lengths [lens]. *)
Fixpoint serve {T} (adapter : RandomSource T) (lens : list nat)
  : M T (list Uint8Array) :=
  match lens with
  | [] => ret []
  | len :: rest =>
      u <- adapter len ;;
      us <- serve adapter rest ;;
      ret (u :: us)
  end.

Section BatchingVocabulary.
Context {St : Type} (Inv : St -> Prop) (source : RandomSource St).
Variable batchSize : nat.

(** The bytes of the first [k] batches drawn from the base source. *)
Fixpoint drawn (k : nat) : M St (list byte) :=
  match k with
  | O => ret []
  | S k' =>
      u <- source batchSize ;;
      rest <- drawn k' ;;
      ret (elements u ++ rest)
  end.

(** The invariant of the state of the adapter. *)
Definition batchedInv (st : Batched St) : Prop :=
  Inv (baseState st)
  /\ match batchBuffer st with
     | None => True
     | Some b => wfView b /\ byteLength b = batchSize
                 /\ batchOffset st < batchSize
     end.

(** The bytes of the current batch that were not handed out yet. *)
Definition pending (st : Batched St) : list byte :=
  match batchBuffer st with
  | None => []
  | Some b => skipn (batchOffset st) (elements b)
  end.

(** The states the adapter can be in. *)
Definition batchedOk (st : Batched St) : Prop :=
  batchedInv st /\ (batchBuffer st = None -> batchOffset st = 0).

End BatchingVocabulary.

(** ** Formatting *)

(** The characters a whole batch offers, in the order the inner loop reads
    it: from the last byte to the first. *)
Fixpoint batchChars (i : nat) (bytes : Uint8Array) (mask : Z) (alphabet : str)
  : str :=
  match i with
  | O => []
  | S i' => charAt alphabet (maskedByte bytes i' mask)
              ++ batchChars i' bytes mask alphabet
  end.

Section FormatVocabulary.
Context {St : Type} (Inv : St -> Prop) (source : RandomSource St).

(** The characters the first [k] batches of [step] bytes offer. *)
Fixpoint offered (k step : nat) (mask : Z) (alphabet : str) : M St str :=
  match k with
  | O => ret []
  | S k' =>
      bytes <- source step ;;
      rest <- offered k' step mask alphabet ;;
      ret (batchChars step bytes mask alphabet ++ rest)
  end.

(** Every batch of [step] bytes holds a byte that [alphabet] accepts. *)
Definition offering (alphabet : str) (step : nat) : Prop :=
  forall s, Inv s ->
    exists bytes s',
      source step s = Ret (bytes, s') /\ Inv s'
      /\ batchChars step bytes (mask (List.length alphabet)) alphabet <> [].

(** The batches [format(source, alphabet, size)] asks for are of this
    kind. *)
Definition formatReady (alphabet : str) (size : nat) : Prop :=
  offering alphabet
    (step (mask (List.length alphabet)) size (List.length alphabet)).

End FormatVocabulary.

(** ** Alphabets and strings of the examples *)

Definition abc : str := list_ascii_of_string "abc".
Definition digits : str := list_ascii_of_string "123".
Definition onlyA : str := list_ascii_of_string "a".
Definition ab : str := list_ascii_of_string "ab".
Definition abcdefgh : str := list_ascii_of_string "abcdefgh".
Definition abcd : str := list_ascii_of_string "abcd".
Definition efgh : str := list_ascii_of_string "efgh".

(** ** Patterns *)

(** The characters a pattern specification allows. *)
Definition alphabetOf (patterns : Patterns) : str :=
  match patterns with
  | Single alphabet => alphabet
  | Multi alphabets => join alphabets
  end.

(** A string that [pattern] may return for [len] and [patterns]. *)
Definition wellFormed (len : nat) (patterns : Patterns) (p : str) : Prop :=
  List.length p = len /\ Forall (fun c => In c (alphabetOf patterns)) p.

(** What the loops of [uniquePatterns] keep true of the set they build. *)
Definition setOk (count len : nat) (patterns : Patterns) (map : list str)
  : Prop :=
  NoDup map /\ Forall (wellFormed len patterns) map
  /\ List.length map <= count.

(** The adapter, in state [st], is about to hand out the bytes of the
    sequence [f] from position [pos] on: it has drawn the batches that
    cover the positions below [j * batchSize], and the bytes it has not
    handed out yet are those from [pos] up to there. *)
Definition replays {St} (Inv : nat -> St -> Prop) (batchSize : nat)
  (f : nat -> byte) (pos : nat) (st : Batched St) : Prop :=
  batchedOk (fun s => exists j, Inv j s) batchSize st
  /\ exists j, Inv j (baseState st)
               /\ pos <= j * batchSize
               /\ pending st = map f (seq pos (j * batchSize - pos)).

(** ** Agreement of two runs *)

(** Two outcomes agree: same kind, same value, related final states. *)
Definition sim {St1 St2 A : Type} (R : St1 -> St2 -> Prop)
  (o1 : outcome (A * St1)) (o2 : outcome (A * St2)) : Prop :=
  match o1, o2 with
  | Ret (a1, s1), Ret (a2, s2) => a1 = a2 /\ R s1 s2
  | RangeError, RangeError => True
  | OutOfFuel, OutOfFuel => True
  | _, _ => False
  end.

(** Two sources, possibly with different internal states, that answer
    every sequence of requests with the same arrays from states related by
    [R]. *)
Definition sameBytes {St1 St2 : Type} (R : St1 -> St2 -> Prop)
  (source1 : RandomSource St1) (source2 : RandomSource St2) : Prop :=
  forall len s1 s2, R s1 s2 -> sim R (source1 len s1) (source2 len s2).

(* ================================================================= *)
(** * Properties *)

(** ** Bytes and big-endian values *)

Lemma byteZ_range (b : byte) : (0 <= byteZ b < 256)%Z.
Proof.
  unfold byteZ. pose proof (Byte.to_N_bounded b). lia.
Qed.

Lemma bigEndian_snoc (bs : list byte) (b : byte) :
  bigEndian (bs ++ [b]) = (bigEndian bs * 256 + byteZ b)%Z.
Proof.
  unfold bigEndian. rewrite fold_left_app. reflexivity.
Qed.

Lemma bigEndian_range (bs : list byte) :
  (0 <= bigEndian bs < 256 ^ Z.of_nat (List.length bs))%Z.
Proof.
  induction bs as [| b bs IH] using rev_ind.
  - cbn. lia.
  - rewrite bigEndian_snoc, length_app, Nat2Z.inj_add, Z.pow_add_r by lia.
    cbn [List.length]. change (256 ^ Z.of_nat 1)%Z with 256%Z.
    pose proof (byteZ_range b). nia.
Qed.

Lemma getUint_all (w : nat) (bs : list byte) :
  List.length bs = w -> getUint w bs 0 = Ret (bigEndian bs).
Proof.
  intros Hlen. unfold getUint. cbn [Nat.add skipn].
  rewrite (proj2 (Nat.leb_le w (List.length bs))) by lia.
  rewrite firstn_all2 by lia. reflexivity.
Qed.

(** When the source answers with a fresh array of exactly the bytes asked
    for, each of [uint8], [uint16], [uint32], [uint64] draws once, exactly
    1, 2, 4 or 8 bytes, and returns their big-endian unsigned value, an
    exact integer below 2^8, 2^16, 2^32 or 2^64; on the sources that yield
    0, 1, ..., 255 cyclically, the first [uint8] is 0 and the next one
    is 1. *)
Theorem uint_big_endian :
  forall (St : Type) (source : RandomSource St) (s s1 s2 s4 s8 : St)
         (a0 b0 b1 c0 c1 c2 c3 d0 d1 d2 d3 d4 d5 d6 d7 : byte),
    draws source 1 s [a0] s1 ->
    draws source 2 s [b0; b1] s2 ->
    draws source 4 s [c0; c1; c2; c3] s4 ->
    draws source 8 s [d0; d1; d2; d3; d4; d5; d6; d7] s8 ->
    (uint8 source s = Ret (byteZ a0, s1)
     /\ 0 <= byteZ a0 < maxUint8)%Z
    /\ (exists v, uint16 source s = Ret (v, s2)
        /\ v = byteZ b0 * 2 ^ 8 + byteZ b1
        /\ 0 <= v < maxUint16)%Z
    /\ (exists v, uint32 source s = Ret (v, s4)
        /\ v = byteZ c0 * 2 ^ 24 + byteZ c1 * 2 ^ 16 + byteZ c2 * 2 ^ 8
               + byteZ c3
        /\ 0 <= v < maxUInt32)%Z
    /\ (exists v, uint64 source s = Ret (v, s8)
        /\ v = byteZ d0 * 2 ^ 56 + byteZ d1 * 2 ^ 48 + byteZ d2 * 2 ^ 40
               + byteZ d3 * 2 ^ 32 + byteZ d4 * 2 ^ 24 + byteZ d5 * 2 ^ 16
               + byteZ d6 * 2 ^ 8 + byteZ d7
        /\ 0 <= v <= maxUint64)%Z
    /\ (uint8 cyclic 0 = Ret (0%Z, 1) /\ uint8 cyclic 1 = Ret (1%Z, 2))
    /\ (exists t1 t2, uint8 createSource (batchedInit tt) = Ret (0%Z, t1)
                      /\ uint8 createSource t1 = Ret (1%Z, t2)).
Proof.
  intros St source s s1 s2 s4 s8 a0 b0 b1 c0 c1 c2 c3 d0 d1 d2 d3 d4 d5 d6 d7
         H1 H2 H4 H8.
  unfold draws in *.
  assert (Hr := byteZ_range).
  split; [split; [unfold uint8, bind; rewrite H1; cbn; do 2 f_equal; lia
                 | apply Hr] |].
  split.
  { eexists. split; [unfold uint16, bind; rewrite H2; cbn; reflexivity |].
    pose proof (Hr b0). pose proof (Hr b1). unfold maxUint16. lia. }
  split.
  { eexists. split; [unfold uint32, bind; rewrite H4; cbn; reflexivity |].
    pose proof (Hr c0). pose proof (Hr c1). pose proof (Hr c2).
    pose proof (Hr c3). unfold maxUInt32. lia. }
  split.
  { eexists. split; [unfold uint64, bind; rewrite H8; cbn; reflexivity |].
    pose proof (Hr d0). pose proof (Hr d1). pose proof (Hr d2).
    pose proof (Hr d3). pose proof (Hr d4). pose proof (Hr d5).
    pose proof (Hr d6). pose proof (Hr d7). unfold maxUint64. lia. }
  split; [split; reflexivity |].
  eexists. eexists. split; vm_compute; reflexivity.
Qed.

Lemma uint_big_endian_witness :
  draws cyclic 4 0 [x00; x01; x02; x03] 4
  /\ exists v, uint32 cyclic 0 = Ret (v, 4) /\ v = 66051%Z.
Proof.
  split; [reflexivity |].
  destruct (uint_big_endian nat cyclic 0 1 2 4 8
              x00 x00 x01 x00 x01 x02 x03 x00 x01 x02 x03 x04 x05 x06 x07
              eq_refl eq_refl eq_refl eq_refl)
    as (_ & _ & (v & Hv & Hval & _) & _).
  exists v. split; [exact Hv | rewrite Hval; reflexivity].
Defined.

(** C7 fails on a source that answers with a view.
    [new DataView(u.buffer)] covers the whole buffer of [u], not the window
    of [u] on it: when a source answers with a view at a non-zero offset of
    a larger buffer, the integer is read from the start of that buffer, not
    from the bytes drawn.  Here the four bytes drawn are 0, 0, 0, 1, whose
    big-endian value is 1, and [uint32] returns 151584768, the value of the
    bytes 9, 9, 0, 0 that precede them in the buffer. *)
Remark uint32_reads_buffer_start :
  exists u, viewSource 4 tt = Ret (u, tt)
            /\ elements u = [x00; x00; x00; x01]
            /\ uint32 viewSource tt = Ret (151584768%Z, tt).
Proof. eexists. repeat split. Qed.

(* ================================================================= *)
(** ** The batching adapter *)

Lemma elements_length (u : Uint8Array) :
  wfView u -> List.length (elements u) = byteLength u.
Proof.
  unfold wfView, elements. intros H.
  rewrite length_firstn, length_skipn. lia.
Qed.

Lemma elements_fromBytes (bs : list byte) : elements (fromBytes bs) = bs.
Proof.
  unfold elements, fromBytes. cbn. apply firstn_all.
Qed.

Lemma wfView_fromBytes (bs : list byte) : wfView (fromBytes bs).
Proof. unfold wfView, fromBytes. cbn. lia. Qed.

Lemma newUint8Array_fromBytes (len : nat) :
  newUint8Array len = fromBytes (repeat x00 len).
Proof.
  unfold newUint8Array, fromBytes. rewrite repeat_length. reflexivity.
Qed.

Lemma elements_subarray (u : Uint8Array) (o size : nat) :
  o + size <= byteLength u ->
  elements (subarray u o (o + size)) = firstn size (skipn o (elements u)).
Proof.
  intros H. unfold elements, subarray. cbn [buffer byteOffset byteLength].
  rewrite !Nat.min_l by lia.
  rewrite skipn_firstn_comm, skipn_skipn, firstn_firstn.
  replace (o + size - o) with size by lia.
  rewrite Nat.min_l by lia.
  rewrite (Nat.add_comm o). reflexivity.
Qed.

Lemma set_fromBytes (rbytes : list byte) (src : Uint8Array) (pos : nat) :
  pos + List.length (elements src) <= List.length rbytes ->
  set (fromBytes rbytes) src pos
  = Ret (fromBytes (firstn pos rbytes ++ elements src
                      ++ skipn (pos + List.length (elements src)) rbytes)).
Proof.
  intros H. unfold set, fromBytes. cbn [buffer byteOffset byteLength Nat.add].
  rewrite (proj2 (Nat.leb_le _ _) H). do 2 f_equal.
  rewrite !length_app, length_firstn, length_skipn. lia.
Qed.

Lemma firstn_add {A} (a b : nat) (l : list A) :
  firstn (a + b) l = firstn a l ++ firstn b (skipn a l).
Proof.
  revert l. induction a as [| a IH]; intros l; [reflexivity |].
  destruct l as [| x l]; cbn; [now rewrite firstn_nil |].
  now rewrite IH.
Qed.

Section Batching.
Context {St : Type} (Inv : St -> Prop) (source : RandomSource St).
Variable batchSize : nat.
Hypothesis HbatchSize : 1 <= batchSize.

(** The base source answers a request for a batch with exactly
    [batchSize] bytes. *)
Hypothesis Hbase : forall s, Inv s ->
  exists u s', source batchSize s = Ret (u, s')
               /\ wfView u /\ byteLength u = batchSize /\ Inv s'.

Lemma drawn_app (k1 k2 : nat) :
  forall s all1 s1 all2 s2,
    drawn source batchSize k1 s = Ret (all1, s1) -> drawn source batchSize k2 s1 = Ret (all2, s2) ->
    drawn source batchSize (k1 + k2) s = Ret (all1 ++ all2, s2).
Proof.
  induction k1 as [| k1 IH]; intros s all1 s1 all2 s2 H1 H2.
  - cbn in H1. unfold ret in H1. injection H1 as <- <-. exact H2.
  - cbn [drawn Nat.add] in *. unfold bind in *.
    destruct (source batchSize s) as [[u su] | |]; try discriminate.
    destruct (drawn source batchSize k1 su) as [[r sr] | |] eqn:E; try discriminate.
    unfold ret in H1. injection H1 as <- <-.
    rewrite (IH su r sr all2 s2 E H2). unfold ret. now rewrite app_assoc.
Qed.

(** The loop copies into the result the next [len - pos] bytes of the
    stream made of what is left of the current batch followed by the
    batches it draws. *)
Lemma batchedLoop_spec :
  forall fuel len pos o b rbytes s,
    Inv s -> wfView b -> byteLength b = batchSize -> o < batchSize ->
    List.length rbytes = len -> pos <= len -> len - pos <= fuel ->
    exists k all s' b' o',
      drawn source batchSize k s = Ret (all, s')
      /\ Inv s' /\ wfView b' /\ byteLength b' = batchSize /\ o' < batchSize
      /\ batchedLoop source batchSize fuel len pos o b (fromBytes rbytes) s
         = Ret (fromBytes (firstn pos rbytes
                             ++ firstn (len - pos) (skipn o (elements b) ++ all)),
                b', o', s')
      /\ skipn o' (elements b') = skipn (len - pos) (skipn o (elements b) ++ all).
Proof.
  assert (Hdone : forall fuel len o b rbytes s,
             Inv s -> wfView b -> byteLength b = batchSize -> o < batchSize ->
             List.length rbytes = len ->
             exists k all s' b' o',
               drawn source batchSize k s = Ret (all, s')
               /\ Inv s' /\ wfView b' /\ byteLength b' = batchSize
               /\ o' < batchSize
               /\ batchedLoop source batchSize fuel len len o b
                    (fromBytes rbytes) s
                  = Ret (fromBytes (firstn len rbytes
                           ++ firstn (len - len) (skipn o (elements b) ++ all)),
                         b', o', s')
               /\ skipn o' (elements b')
                  = skipn (len - len) (skipn o (elements b) ++ all)).
  { intros fuel len o b rbytes s Hs Hb HbB Ho Hlen.
    exists 0, [], s, b, o. rewrite Nat.sub_diag, app_nil_r. cbn [firstn skipn].
    rewrite app_nil_r, firstn_all2 by lia.
    repeat split; try assumption.
    destruct fuel; cbn [batchedLoop]; rewrite Nat.ltb_irrefl; reflexivity. }
  induction fuel as [| fuel IH];
    intros len pos o b rbytes s Hs Hb HbB Ho Hlen Hpos Hfuel.
  - assert (pos = len) as -> by lia. apply Hdone; assumption.
  - destruct (Nat.eq_dec pos len) as [-> | Hne]; [apply Hdone; assumption |].
    assert (Hlt : pos < len) by lia.
    pose proof (elements_length b Hb) as Hel.
    set (pending := skipn o (elements b)).
    assert (Hpl : List.length pending = batchSize - o)
      by (unfold pending; rewrite length_skipn; lia).
    set (size := Nat.min (len - pos) (batchSize - o)).
    assert (Hsize : 1 <= size) by (unfold size; lia).
    assert (Hdata : elements (subarray b o (o + size)) = firstn size pending)
      by (apply elements_subarray; unfold size; lia).
    assert (Hdl : List.length (firstn size pending) = size)
      by (rewrite length_firstn; unfold size; lia).
    cbn [batchedLoop]. rewrite (proj2 (Nat.ltb_lt pos len) Hlt).
    fold size. rewrite set_fromBytes by (rewrite Hdata, Hdl; unfold size; lia).
    rewrite Hdata, Hdl.
    set (rbytes1 := firstn pos rbytes ++ firstn size pending
                      ++ skipn (pos + size) rbytes).
    assert (Hlen1 : List.length rbytes1 = len).
    { unfold rbytes1. rewrite !length_app, length_firstn, Hdl, length_skipn.
      unfold size. lia. }
    assert (Hpre : firstn (pos + size) rbytes1
                   = firstn pos rbytes ++ firstn size pending).
    { unfold rbytes1. rewrite app_assoc. rewrite firstn_app.
      rewrite length_app, length_firstn, Hdl.
      replace (pos + size - (Nat.min pos (List.length rbytes) + size)) with 0
        by lia.
      rewrite firstn_0, app_nil_r. apply firstn_all2.
      rewrite length_app, length_firstn, Hdl. lia. }
    destruct (Nat.eqb_spec (o + size) batchSize) as [Hfull | Hpart].
    + assert (Hsz : size = batchSize - o) by lia.
      assert (Hall : firstn size pending = pending)
        by (apply firstn_all2; lia).
      destruct (Hbase s Hs) as (b1 & s1 & Hdraw & Hb1 & Hb1B & Hs1).
      unfold bind at 1. rewrite Hdraw.
      destruct (IH len (pos + size) 0 b1 rbytes1 s1 Hs1 Hb1 Hb1B ltac:(lia)
                  Hlen1 ltac:(unfold size; lia) ltac:(lia))
        as (k & all & s' & b' & o' & Hdr & Hs' & Hb' & Hb'B & Ho' & Hloop & Hleft).
      exists (S k), (elements b1 ++ all), s', b', o'.
      cbn [drawn]. unfold bind at 1. rewrite Hdraw. unfold bind. rewrite Hdr.
      unfold ret. repeat split; try assumption.
      * rewrite Hloop. do 4 f_equal. rewrite Hpre, Hall. cbn [skipn].
        rewrite <- app_assoc. f_equal.
        rewrite (firstn_app (len - pos) pending), Hpl.
        rewrite (firstn_all2 (n := len - pos) pending) by lia.
        replace (len - (pos + size)) with (len - pos - (batchSize - o)) by lia.
        reflexivity.
      * rewrite Hleft. cbn [skipn].
        rewrite (skipn_app (len - pos) pending), Hpl.
        rewrite (skipn_all2 (n := len - pos) pending) by lia.
        replace (len - (pos + size)) with (len - pos - (batchSize - o)) by lia.
        reflexivity.
    + assert (Hsz : size = len - pos) by (unfold size in *; lia).
      assert (Hend : pos + size = len) by lia.
      destruct (IH len (pos + size) (o + size) b rbytes1 s Hs Hb HbB
                  ltac:(unfold size in *; lia) Hlen1 ltac:(lia) ltac:(lia))
        as (k & all & s' & b' & o' & Hdr & Hs' & Hb' & Hb'B & Ho' & Hloop & Hleft).
      exists k, all, s', b', o'.
      repeat split; try assumption.
      * rewrite Hloop. do 4 f_equal. rewrite Hpre.
        rewrite <- app_assoc. f_equal.
        replace (len - (pos + size)) with 0 by lia. rewrite firstn_0, app_nil_r.
        fold pending. rewrite <- Hsz.
        rewrite (firstn_app size pending), Hpl.
        replace (size - (batchSize - o)) with 0 by (unfold size in *; lia).
        rewrite firstn_0, app_nil_r. reflexivity.
      * rewrite Hleft. replace (len - (pos + size)) with 0 by lia.
        cbn [skipn]. fold pending. rewrite <- Hsz.
        rewrite (skipn_app size pending), Hpl.
        replace (size - (batchSize - o)) with 0 by (unfold size in *; lia).
        cbn [skipn]. unfold pending. rewrite skipn_skipn.
        rewrite (Nat.add_comm size o). reflexivity.
Qed.

Lemma batchedRandomSource_spec (len : nat) (st : Batched St) :
  batchedInv Inv batchSize st ->
  (batchBuffer st = None -> batchOffset st = 0) ->
  exists k all st',
    drawn source batchSize k (baseState st) = Ret (all, baseState st')
    /\ batchedInv Inv batchSize st'
    /\ (exists b, batchBuffer st' = Some b)
    /\ batchedRandomSource source batchSize len st
       = Ret (fromBytes (firstn len (pending st ++ all)), st')
    /\ pending st' = skipn len (pending st ++ all)
    /\ len < List.length (pending st ++ all).
Proof.
  intros [Hs Hbuf] Hnone. unfold batchedRandomSource, pending.
  assert (Hgen : forall b o s all0 k0,
             drawn source batchSize k0 (baseState st) = Ret (all0, s) ->
             Inv s -> wfView b -> byteLength b = batchSize -> o < batchSize ->
             exists k all st',
               drawn source batchSize k (baseState st) = Ret (all0 ++ all, baseState st')
               /\ batchedInv Inv batchSize st'
               /\ (exists b', batchBuffer st' = Some b')
               /\ match batchedLoop source batchSize len len 0 o b
                          (newUint8Array len) s with
                  | Ret (result, b', offset', s') =>
                      Ret (result, mkBatched (Some b') offset' s')
                  | RangeError => RangeError
                  | OutOfFuel => OutOfFuel
                  end
                  = Ret (fromBytes (firstn len (skipn o (elements b) ++ all)), st')
               /\ skipn (batchOffset st')
                    match batchBuffer st' with
                    | Some b' => elements b' | None => [] end
                  = skipn len (skipn o (elements b) ++ all)
               /\ len < List.length (skipn o (elements b) ++ all)).
  { intros b o s all0 k0 Hd0 Hs0 Hb HbB Ho.
    rewrite newUint8Array_fromBytes.
    destruct (batchedLoop_spec len len 0 o b (repeat x00 len) s Hs0 Hb HbB Ho
                (repeat_length _ _) ltac:(lia) ltac:(lia))
      as (k & all & s' & b' & o' & Hdr & Hs' & Hb' & Hb'B & Ho' & Hloop & Hleft).
    exists (k0 + k), all, (mkBatched (Some b') o' s').
    rewrite Hloop. rewrite Nat.sub_0_r in *. cbn [firstn app] in *.
    cbn [baseState batchBuffer batchOffset].
    split; [exact (drawn_app k0 k _ _ _ _ _ Hd0 Hdr) |].
    split; [split; cbn; auto |].
    split; [eauto |]. split; [reflexivity |]. split; [exact Hleft |].
    apply (f_equal (@List.length byte)) in Hleft.
    rewrite !length_skipn in Hleft.
    rewrite (elements_length b' Hb') in Hleft. lia. }
  destruct (batchBuffer st) as [b |] eqn:Eb.
  - destruct Hbuf as (Hb & HbB & Ho).
    destruct (Hgen b (batchOffset st) (baseState st) [] 0 eq_refl Hs Hb HbB Ho)
      as (k & all & st' & Hdr & Hinv & Hsome & Hres & Hleft & Hlong).
    exists k, all, st'. repeat split; try assumption; try apply Hinv.
    destruct Hsome as (b' & Eb'). rewrite Eb' in Hleft |- *. exact Hleft.
  - destruct (Hbase (baseState st) Hs) as (b & s1 & Hdraw & Hb & HbB & Hs1).
    rewrite Hdraw. rewrite (Hnone eq_refl).
    assert (Hd1 : drawn source batchSize 1 (baseState st) = Ret (elements b, s1)).
    { cbn [drawn]. unfold bind. rewrite Hdraw. unfold ret.
      now rewrite app_nil_r. }
    destruct (Hgen b 0 s1 (elements b) 1 Hd1 Hs1 Hb HbB ltac:(lia))
      as (k & all & st' & Hdr & Hinv & Hsome & Hres & Hleft & Hlong).
    cbn [skipn] in *.
    exists k, (elements b ++ all), st'. cbn [app].
    repeat split; try assumption; try apply Hinv.
    destruct Hsome as (b' & Eb'). rewrite Eb' in Hleft |- *. exact Hleft.
Qed.

Lemma batchedOk_init (s : St) : Inv s -> batchedOk Inv batchSize (batchedInit s).
Proof. intros H. repeat split; cbn; auto. Qed.

(** The adapter is itself a reliable byte source. *)
Lemma batchedRandomSource_reliable :
  reliable (batchedOk Inv batchSize) (batchedRandomSource source batchSize).
Proof.
  intros len st [Hinv Hnone].
  destruct (batchedRandomSource_spec len st Hinv Hnone)
    as (k & all & st' & _ & Hinv' & (b' & Eb') & Hres & _ & Hlong).
  exists (firstn len (pending st ++ all)), st'.
  split; [exact Hres |]. split; [rewrite length_firstn; lia |].
  split; [exact Hinv' | rewrite Eb'; discriminate].
Qed.

Lemma serve_spec (lens : list nat) :
  forall st,
    batchedOk Inv batchSize st ->
    exists k all outs st',
      drawn source batchSize k (baseState st) = Ret (all, baseState st')
      /\ batchedOk Inv batchSize st'
      /\ serve (batchedRandomSource source batchSize) lens st = Ret (outs, st')
      /\ map (fun u => List.length (elements u)) outs = lens
      /\ Forall (fun u => u = fromBytes (elements u)) outs
      /\ List.concat (map elements outs)
         = firstn (list_sum lens) (pending st ++ all)
      /\ pending st' = skipn (list_sum lens) (pending st ++ all)
      /\ list_sum lens <= List.length (pending st ++ all).
Proof.
  induction lens as [| len lens IH]; intros st Hok.
  - exists 0, [], [], st. cbn. rewrite app_nil_r.
    repeat split; auto; try apply Hok; lia.
  - destruct Hok as [Hinv Hnone].
    destruct (batchedRandomSource_spec len st Hinv Hnone)
      as (k1 & all1 & st1 & Hd1 & Hinv1 & (b1 & Eb1) & Hres & Hleft1 & Hlong1).
    assert (Hok1 : batchedOk Inv batchSize st1) by (split; [exact Hinv1 | rewrite Eb1; discriminate]).
    destruct (IH st1 Hok1)
      as (k2 & all2 & outs & st2 & Hd2 & Hok2 & Hserve & Hlens & Hfresh
          & Hcat & Hleft2 & Hlong2).
    set (P := pending st) in *.
    assert (Hskip : pending st1 ++ all2 = skipn len (P ++ all1 ++ all2)).
    { rewrite Hleft1, app_assoc, (skipn_app len (P ++ all1)).
      replace (len - List.length (P ++ all1)) with 0 by lia. reflexivity. }
    assert (Hfirst : firstn len (P ++ all1) = firstn len (P ++ all1 ++ all2)).
    { rewrite (app_assoc P), (firstn_app len (P ++ all1)).
      replace (len - List.length (P ++ all1)) with 0 by lia.
      now rewrite firstn_0, app_nil_r. }
    assert (Hlen2 : List.length (pending st1 ++ all2)
                    = List.length (P ++ all1 ++ all2) - len)
      by (rewrite Hskip, length_skipn; reflexivity).
    assert (Hlen1 : List.length (P ++ all1) <= List.length (P ++ all1 ++ all2))
      by (rewrite !length_app; lia).
    exists (k1 + k2), (all1 ++ all2), (fromBytes (firstn len (P ++ all1)) :: outs), st2.
    split; [exact (drawn_app k1 k2 _ _ _ _ _ Hd1 Hd2) |].
    split; [exact Hok2 |].
    split.
    { cbn [serve]. unfold bind at 1. rewrite Hres. unfold bind.
      rewrite Hserve. reflexivity. }
    cbn [map List.concat]. rewrite elements_fromBytes.
    change (list_sum (len :: lens)) with (len + list_sum lens).
    split; [f_equal; [rewrite length_firstn; lia | exact Hlens] |].
    split; [constructor; [now rewrite elements_fromBytes | exact Hfresh] |].
    split; [rewrite Hcat, Hskip, Hfirst; symmetry; apply firstn_add |].
    split; [rewrite Hleft2, Hskip, skipn_skipn; f_equal; lia |].
    lia.
Qed.

End Batching.

(** C8. For a base source that answers a request for a batch with exactly
    [batchSize >= 1] bytes, the adapter answers every request of a sequence
    with a fresh array of exactly the requested length, and the bytes it
    returns, put end to end, are the first bytes of the batches it has drawn
    from the base source, in the order they were drawn. *)
Theorem batchedRandomSource_preserves_order :
  forall (St : Type) (Inv : St -> Prop) (source : RandomSource St)
         (batchSize : nat) (s0 : St) (lens : list nat),
    1 <= batchSize ->
    (forall s, Inv s ->
       exists u s', source batchSize s = Ret (u, s')
                    /\ wfView u /\ byteLength u = batchSize /\ Inv s') ->
    Inv s0 ->
    exists outs st' k all,
      serve (batchedRandomSource source batchSize) lens (batchedInit s0)
      = Ret (outs, st')
      /\ map (fun u => List.length (elements u)) outs = lens
      /\ Forall (fun u => u = fromBytes (elements u)) outs
      /\ drawn source batchSize k s0 = Ret (all, baseState st')
      /\ List.concat (map elements outs) = firstn (list_sum lens) all
      /\ list_sum lens <= List.length all.
Proof.
  intros St Inv source batchSize s0 lens HB Hbase Hs0.
  destruct (serve_spec Inv source batchSize HB Hbase lens (batchedInit s0)
              (batchedOk_init Inv batchSize s0 Hs0))
    as (k & all & outs & st' & Hd & _ & Hserve & Hlens & Hfresh & Hcat & _ & Hlong).
  exists outs, st', k, all. cbn in Hd, Hcat, Hlong. auto 10.
Qed.

Lemma streamSource_batches (f : nat -> byte) (batchSize : nat) :
  forall s, True ->
    exists u s', streamSource f batchSize s = Ret (u, s')
                 /\ wfView u /\ byteLength u = batchSize /\ True.
Proof.
  intros s _. eexists. eexists. split; [reflexivity |].
  split; [apply wfView_fromBytes |].
  split; [cbn; now rewrite length_map, length_seq | exact I].
Qed.

Lemma batchedRandomSource_preserves_order_witness :
  1 <= 4 /\ True
  /\ exists outs st' k all,
      serve (batchedRandomSource cyclic 4) [3; 6; 0; 2] (batchedInit 0)
      = Ret (outs, st')
      /\ map (fun u => List.length (elements u)) outs = [3; 6; 0; 2]
      /\ Forall (fun u => u = fromBytes (elements u)) outs
      /\ drawn cyclic 4 k 0 = Ret (all, baseState st')
      /\ List.concat (map elements outs) = firstn (list_sum [3; 6; 0; 2]) all
      /\ list_sum [3; 6; 0; 2] <= List.length all.
Proof.
  split; [lia |]. split; [exact I |].
  apply (batchedRandomSource_preserves_order nat (fun _ => True) cyclic 4 0
           [3; 6; 0; 2]); [lia | apply streamSource_batches | exact I].
Defined.

Lemma stableRandomSource_batches (batchSize : nat) :
  forall s : unit, True ->
    exists u s', stableRandomSource batchSize s = Ret (u, s')
                 /\ wfView u /\ byteLength u = batchSize /\ True.
Proof.
  intros s _. eexists. eexists. split; [reflexivity |].
  split; [apply wfView_fromBytes |].
  split; [cbn; now rewrite length_map, length_seq | exact I].
Qed.

(** The source of the test-suite is reliable. *)
Lemma createSource_reliable :
  reliable (batchedOk (fun _ => True) 1024) createSource.
Proof.
  apply batchedRandomSource_reliable; [lia |].
  apply stableRandomSource_batches.
Qed.

Lemma createSource_init : batchedOk (fun _ => True) 1024 (batchedInit tt).
Proof. apply batchedOk_init. exact I. Qed.

Example batchedRandomSource_run :
  exists st',
    serve (batchedRandomSource cyclic 4) [3; 6; 0; 2] (batchedInit 0)
    = Ret ([fromBytes [x00; x01; x02];
            fromBytes [x03; x04; x05; x06; x07; x08];
            fromBytes [];
            fromBytes [x09; x0a]], st')
    /\ baseState st' = 12.
Proof. eexists. split; vm_compute; reflexivity. Qed.

(* ================================================================= *)
(** ** Sources that honour the contract of a byte source *)

Lemma streamSource_reliable (f : nat -> byte) :
  reliable (fun _ => True) (streamSource f).
Proof.
  intros len s _. exists (map f (seq s len)), (s + len).
  unfold draws, streamSource. rewrite length_map, length_seq. auto.
Qed.

Section Reliable.
Context {St : Type} (Inv : St -> Prop) (source : RandomSource St).
Hypothesis Hsource : reliable Inv source.

Lemma uint32_reliable (s : St) :
  Inv s ->
  exists v s', uint32 source s = Ret (v, s') /\ (0 <= v < maxUInt32)%Z /\ Inv s'.
Proof.
  intros Hs. destruct (Hsource 4 s Hs) as (bs & s' & Hd & Hlen & Hs').
  exists (bigEndian bs), s'. unfold uint32, bind. rewrite Hd.
  unfold getUint32. cbn [fromBytes buffer]. rewrite (getUint_all 4 bs Hlen).
  pose proof (bigEndian_range bs) as Hb. rewrite Hlen in Hb.
  repeat split; try assumption; unfold maxUInt32; cbn in Hb; lia.
Qed.

(** The loop of [rejectionSampling], started with counter [i] and enough
    fuel for the iterations that remain: it makes [k] draws, rejects the
    first [k - 1] of them, and returns the last one. *)
Lemma rejectionLoop_spec (range : Z) :
  forall fuel i s,
    Inv s -> i <= maxIntegerIter -> maxIntegerIter < fuel + i ->
    exists k vs v s',
      samples source k s = Ret (vs ++ [v], s')
      /\ rejectionLoop source fuel i range s = Ret (v, s')
      /\ Inv s'
      /\ k = S (List.length vs)
      /\ i + k <= S maxIntegerIter
      /\ Forall (fun x => (0 <= x < maxUInt32)%Z
                          /\ lessThan x (limit range) = false) vs
      /\ (0 <= v < maxUInt32)%Z
      /\ (i + k <= maxIntegerIter -> lessThan v (limit range) = true).
Proof.
  induction fuel as [| fuel IH]; intros i s Hs Hi Hfuel; [lia |].
  destruct (uint32_reliable s Hs) as (v0 & s0 & Hv0 & Hr0 & Hs0).
  cbn [rejectionLoop]. unfold bind at 1. rewrite Hv0.
  destruct (maxIntegerIter <=? i) eqn:Ecap.
  - apply Nat.leb_le in Ecap.
    exists 1, [], v0, s0. cbn [samples app List.length].
    unfold bind. rewrite Hv0. unfold ret.
    repeat split; auto; lia.
  - apply Nat.leb_gt in Ecap.
    destruct (lessThan v0 (limit range)) eqn:Eacc; cbn [negb].
    + exists 1, [], v0, s0. cbn [samples app List.length].
      unfold bind. rewrite Hv0. unfold ret.
      repeat split; auto; lia.
    + destruct (IH (S i) s0 Hs0 ltac:(lia) ltac:(lia))
        as (k & vs & v & s' & Hsam & Hloop & Hs' & Hk & Hik & Hrej & Hv & Hacc).
      exists (S k), (v0 :: vs), v, s'.
      cbn [samples]. unfold bind at 1. rewrite Hv0.
      unfold bind. rewrite Hsam. unfold ret. cbn [app List.length].
      repeat split; auto; try lia.
      intros Hle. apply Hacc. lia.
Qed.

End Reliable.

(* ================================================================= *)
(** ** Bounded integers *)

Lemma limit_pos (range : Z) :
  (1 <= range)%Z -> limit range = Int (maxUInt32 / range * range).
Proof.
  intros H. unfold limit. destruct (Z.eqb_spec range 0); [lia | reflexivity].
Qed.

Lemma remainder_pos (v range : Z) :
  (0 <= v)%Z -> (1 <= range)%Z -> remainder v range = Int (v mod range).
Proof.
  intros Hv H. unfold remainder.
  destruct (Z.eqb_spec range 0); [lia |].
  rewrite Z.rem_mod_nonneg by lia. reflexivity.
Qed.

(** What [rejectionSampling] does on a valid range, draw by draw. *)
Lemma rejectionSampling_spec {St} (Inv : St -> Prop) (source : RandomSource St)
  (s : St) (range : Z) :
  reliable Inv source -> Inv s -> (1 <= range)%Z ->
  exists k vs v s',
    1 <= k <= S maxIntegerIter
    /\ samples source k s = Ret (vs ++ [v], s')
    /\ Forall (fun x => (0 <= x < maxUInt32)%Z
                        /\ (maxUInt32 / range * range <= x)%Z) vs
    /\ (0 <= v < maxUInt32)%Z
    /\ (k <= maxIntegerIter -> (v < maxUInt32 / range * range)%Z)
    /\ rejectionSampling source range s = Ret (Int (v mod range), s')
    /\ Inv s'.
Proof.
  intros Hsrc Hs Hrange.
  destruct (rejectionLoop_spec Inv source Hsrc range (S maxIntegerIter) 0 s Hs)
    as (k & vs & v & s' & Hsam & Hloop & Hs' & Hk & Hik & Hrej & Hv & Hacc);
    [lia | lia |].
  exists k, vs, v, s'. rewrite limit_pos in * by assumption.
  split; [lia |]. split; [exact Hsam |].
  split.
  { eapply Forall_impl; [| exact Hrej]. cbn. intros x [Hx Hlt].
    apply Z.ltb_ge in Hlt. auto. }
  split; [exact Hv |].
  split.
  { intros Hle. apply Z.ltb_lt. apply Hacc. lia. }
  split; [| exact Hs'].
  unfold rejectionSampling, bind. rewrite Hloop. unfold ret.
  rewrite remainder_pos by lia. reflexivity.
Qed.

Lemma integerLessThan_Z {St} (source : RandomSource St) (range : Z) :
  integerLessThan source (inject_Z range) = rejectionSampling source range.
Proof.
  unfold integerLessThan. rewrite Qceiling_Z. reflexivity.
Qed.

(** What [integerLessThan] returns on a valid range. *)
Lemma integerLessThan_bounds {St} (Inv : St -> Prop) (source : RandomSource St)
  (s : St) (range : Z) :
  reliable Inv source -> Inv s -> (1 <= range)%Z ->
  exists r s',
    integerLessThan source (inject_Z range) s = Ret (Int r, s')
    /\ (0 <= r < range)%Z /\ Inv s'.
Proof.
  intros Hsrc Hs Hrange.
  destruct (rejectionSampling_spec Inv source s range Hsrc Hs Hrange)
    as (k & vs & v & s' & _ & _ & _ & _ & _ & Hres & Hs').
  exists (v mod range)%Z, s'. rewrite integerLessThan_Z.
  repeat split; try assumption; apply Z.mod_pos_bound; lia.
Qed.

Lemma uint32_streamSource (f : nat -> byte) (s : nat) :
  exists v, uint32 (streamSource f) s = Ret (v, s + 4).
Proof.
  eexists. unfold uint32, bind, streamSource.
  unfold getUint32. cbn [fromBytes buffer].
  rewrite getUint_all by (rewrite length_map, length_seq; reflexivity).
  reflexivity.
Qed.

Lemma samples_streamSource (f : nat -> byte) (k : nat) :
  forall s vs s',
    samples (streamSource f) k s = Ret (vs, s') -> s' = s + 4 * k.
Proof.
  induction k as [| k IH]; intros s vs s' H.
  - cbn in H. unfold ret in H. injection H as _ <-. lia.
  - cbn [samples] in H. unfold bind at 1 in H.
    destruct (uint32_streamSource f s) as (v & Hv). rewrite Hv in H.
    unfold bind in H.
    destruct (samples (streamSource f) k (s + 4)) as [[vs0 s0] | |] eqn:E;
      try discriminate.
    unfold ret in H. injection H as _ <-.
    apply IH in E. lia.
Qed.

(** C5, as stated, fails: on the source that only yields 255, range 3
    rejects every draw (4294967295 is not below the limit 4294967295), and
    the state reached by [integerLessThan] is the one after 101 draws, not
    the one after any number of draws up to 100. *)
Lemma integerLessThan_101_draws :
  integerLessThan allOnes (inject_Z 3) 0 = Ret (Int 0, 404)
  /\ samples allOnes 101 0 = Ret (repeat 4294967295%Z 101, 404)
  /\ forall k vs s', k <= 100 -> samples allOnes k 0 = Ret (vs, s') -> s' <> 404.
Proof.
  split; [vm_compute; reflexivity |].
  split; [vm_compute; reflexivity |].
  intros k vs s' Hk H. apply samples_streamSource in H. lia.
Qed.

(** C5 (amended). For every reliable byte source and every integer range
    >= 1, [integerLessThan] makes [k] draws of a 32-bit integer with
    1 <= k <= 101: the first [k - 1] draws are rejected (not below
    floor(2^32 / range) * range), a draw among the first 100 is returned only
    if it is below that limit, and the 101st draw is returned whatever it
    is; the result is the last draw modulo [range].  With range 1 the first
    draw is accepted and the result is 0. *)
Theorem integerLessThan_draws :
  forall (St : Type) (Inv : St -> Prop) (source : RandomSource St) (s : St)
         (range : Z),
    reliable Inv source -> Inv s -> (1 <= range)%Z ->
    exists k vs v s',
      1 <= k <= S maxIntegerIter
      /\ samples source k s = Ret (vs ++ [v], s')
      /\ Forall (fun x => (maxUInt32 / range * range <= x)%Z) vs
      /\ (k <= maxIntegerIter -> (v < maxUInt32 / range * range)%Z)
      /\ integerLessThan source (inject_Z range) s = Ret (Int (v mod range), s')
      /\ (range = 1%Z -> k = 1 /\ (v mod range = 0)%Z).
Proof.
  intros St Inv source s range Hsrc Hs Hrange.
  destruct (rejectionSampling_spec Inv source s range Hsrc Hs Hrange)
    as (k & vs & v & s' & Hk & Hsam & Hrej & Hv & Hacc & Hres & _).
  exists k, vs, v, s'. rewrite integerLessThan_Z.
  repeat split; try assumption; try lia.
  - eapply Forall_impl; [| exact Hrej]. cbn. tauto.
  - subst range. destruct vs as [| x vs]; [cbn in *|].
    + apply (f_equal (fun o => match o with
                               | Ret (l, _) => List.length l | _ => 0 end)) in Hsam.
      destruct k as [| [| k]]; cbn in Hsam; try reflexivity.
      * discriminate.
      * unfold bind in Hsam.
        destruct (uint32 source s) as [[a sa] | |]; try discriminate.
        destruct (uint32 source sa) as [[b sb] | |]; try discriminate.
        destruct (samples source k sb) as [[c sc] | |]; discriminate.
    + inversion Hrej as [| ? ? [Hx Hlim] ?]; subst.
      unfold maxUInt32 in *. cbn in Hlim. lia.
  - subst range. apply Z.mod_1_r.
Qed.

Lemma integerLessThan_draws_witness :
  reliable (fun _ => True) allOnes /\ True /\ (1 <= 3)%Z
  /\ exists k vs v s',
      1 <= k <= S maxIntegerIter
      /\ samples allOnes k 0 = Ret (vs ++ [v], s')
      /\ Forall (fun x => (maxUInt32 / 3 * 3 <= x)%Z) vs
      /\ (k <= maxIntegerIter -> (v < maxUInt32 / 3 * 3)%Z)
      /\ integerLessThan allOnes (inject_Z 3) 0 = Ret (Int (v mod 3), s')
      /\ (3%Z = 1%Z -> k = 1 /\ (v mod 3 = 0)%Z).
Proof.
  split; [apply streamSource_reliable |].
  split; [exact I |]. split; [lia |].
  apply (integerLessThan_draws nat (fun _ => True) allOnes 0 3
           (streamSource_reliable _) I).
  lia.
Defined.

Lemma ceiling_least (q : Q) (z : Z) : (q <= inject_Z z)%Q -> (Qceiling q <= z)%Z.
Proof.
  intros H. rewrite <- (Qceiling_Z z). apply Qceiling_resp_le. exact H.
Qed.

Lemma floor_greatest (q : Q) (z : Z) : (inject_Z z <= q)%Q -> (z <= Qfloor q)%Z.
Proof.
  intros H. rewrite <- (Qfloor_Z z). apply Qfloor_resp_le. exact H.
Qed.

Lemma ceiling_floor_gap (min max : Q) :
  (min <= max)%Q -> (Qceiling min <= Qfloor max + 1)%Z.
Proof.
  intros Hle.
  assert (H : (inject_Z (Qceiling min - 1) < inject_Z (Qfloor max + 1))%Q).
  { eapply Qlt_le_trans; [apply Qceiling_lt |].
    eapply Qle_trans; [exact Hle |]. apply Qlt_le_weak, Qlt_floor. }
  rewrite <- Zlt_Qlt in H. lia.
Qed.

Lemma integer_spec {St} (Inv : St -> Prop) (source : RandomSource St)
  (s : St) (min max : Q) :
  reliable Inv source -> Inv s ->
  (min <= max)%Q -> (Qceiling min <= Qfloor max)%Z ->
  exists r s',
    integerLessThan source (inject_Z (Qfloor max - Qceiling min + 1)) s
    = Ret (Int r, s')
    /\ integer source min max s = Ret (Int (Qceiling min + r), s')
    /\ (Qceiling min <= Qceiling min + r <= Qfloor max)%Z
    /\ Inv s'.
Proof.
  intros Hsrc Hs Hle Hlh.
  destruct (integerLessThan_bounds Inv source s
              (Qfloor max - Qceiling min + 1) Hsrc Hs ltac:(lia))
    as (r & s' & Hr & Hb & Hs').
  exists r, s'. split; [exact Hr |]. split; [| split; [lia | exact Hs']].
  unfold integer. rewrite (proj2 (Qle_bool_iff min max) Hle).
  unfold bind. rewrite Hr. reflexivity.
Qed.

(** C6. On a reliable byte source, [integerLessThan] with an integer range
    >= 1 returns an integer of [0, range), and [integer] with integers
    min <= max within [maxSafeInteger] returns
    [min + integerLessThan(max - min + 1)], an integer of [min, max];
    [integer(5, 5)] is 5. *)
Theorem integer_in_range :
  forall (St : Type) (Inv : St -> Prop) (source : RandomSource St) (s : St),
    reliable Inv source -> Inv s ->
    (forall range : Z, (1 <= range)%Z ->
       exists r s', integerLessThan source (inject_Z range) s = Ret (Int r, s')
                    /\ (0 <= r < range)%Z)
    /\ (forall min max : Z,
          (- maxSafeInteger <= min)%Z -> (min <= max)%Z ->
          (max <= maxSafeInteger)%Z ->
          exists r s',
            integerLessThan source (inject_Z (max - min + 1)) s = Ret (Int r, s')
            /\ integer source (inject_Z min) (inject_Z max) s
               = Ret (Int (min + r), s')
            /\ (min <= min + r <= max)%Z)
    /\ (exists s', integer source (inject_Z 5) (inject_Z 5) s = Ret (Int 5, s')).
Proof.
  intros St Inv source s Hsrc Hs.
  assert (Hint : forall min max : Z,
            (- maxSafeInteger <= min)%Z -> (min <= max)%Z ->
            (max <= maxSafeInteger)%Z ->
            exists r s',
              integerLessThan source (inject_Z (max - min + 1)) s = Ret (Int r, s')
              /\ integer source (inject_Z min) (inject_Z max) s
                 = Ret (Int (min + r), s')
              /\ (min <= min + r <= max)%Z).
  { intros min max _ Hle _.
    destruct (integer_spec Inv source s (inject_Z min) (inject_Z max) Hsrc Hs)
      as (r & s' & Hr & Hi & Hb & _).
    - rewrite <- Zle_Qle. exact Hle.
    - rewrite Qceiling_Z, Qfloor_Z. exact Hle.
    - rewrite Qceiling_Z, Qfloor_Z in *. exists r, s'. auto. }
  split; [| split].
  - intros range Hrange.
    destruct (integerLessThan_bounds Inv source s range Hsrc Hs Hrange)
      as (r & s' & Hr & Hb & _).
    exists r, s'. auto.
  - exact Hint.
  - destruct (Hint 5%Z 5%Z) as (r & s' & _ & Hi & Hb);
      [unfold maxSafeInteger; lia | lia | unfold maxSafeInteger; lia |].
    exists s'. rewrite Hi. do 2 f_equal. f_equal. lia.
Qed.

Lemma integer_in_range_witness :
  reliable (batchedOk (fun _ => True) 1024) createSource
  /\ batchedOk (fun _ => True) 1024 (batchedInit tt)
  /\ exists t,
       integer createSource (inject_Z 5) (inject_Z 5) (batchedInit tt)
       = Ret (Int 5, t).
Proof.
  split; [exact createSource_reliable |]. split; [exact createSource_init |].
  exact (proj2 (proj2 (integer_in_range _ _ createSource (batchedInit tt)
                         createSource_reliable createSource_init))).
Defined.

(** C10. [integer] narrows fractional bounds inward: for bounds within
    [maxSafeInteger], with [l = ceil(min)] and [h = floor(max)], whenever
    [min <= max] and [l <= h] it returns [l + integerLessThan(h - l + 1)],
    an integer of [ceil(min), floor(max)], hence of [min, max].  And
    [integerLessThan] samples with the ceiling of a fractional range: for a
    range above zero it returns what it returns for the ceiling of the
    range, an integer from 0 that is below the range itself. *)
Theorem integer_fractional_bounds :
  forall (St : Type) (Inv : St -> Prop) (source : RandomSource St) (s : St)
         (min max : Q),
    reliable Inv source -> Inv s ->
    (inject_Z (- maxSafeInteger) <= min)%Q ->
    (max <= inject_Z maxSafeInteger)%Q ->
    (min <= max)%Q -> (Qceiling min <= Qfloor max)%Z ->
    (exists r s',
       integerLessThan source (inject_Z (Qfloor max - Qceiling min + 1)) s
       = Ret (Int r, s')
       /\ integer source min max s = Ret (Int (Qceiling min + r), s')
       /\ (Qceiling min <= Qceiling min + r <= Qfloor max)%Z
       /\ (min <= inject_Z (Qceiling min + r) <= max)%Q)
    /\ (forall range : Q, (0 < range)%Q ->
          exists r s',
            integerLessThan source range s = Ret (Int r, s')
            /\ integerLessThan source (inject_Z (Qceiling range)) s
               = Ret (Int r, s')
            /\ (0 <= r < Qceiling range)%Z
            /\ (inject_Z r < range)%Q).
Proof.
  intros St Inv source s min max Hsrc Hs _ _ Hle Hlh.
  split.
  - destruct (integer_spec Inv source s min max Hsrc Hs Hle Hlh)
      as (r & s' & Hr & Hi & Hb & _).
    exists r, s'. repeat split; try assumption; try lia.
    + eapply Qle_trans; [apply Qle_ceiling |].
      rewrite <- Zle_Qle. lia.
    + eapply Qle_trans; [| apply Qfloor_le].
      rewrite <- Zle_Qle. lia.
  - intros range Hpos.
    assert (Hc : (1 <= Qceiling range)%Z).
    { pose proof (Qle_ceiling range) as Hq.
      assert (Hlt : (inject_Z 0 < inject_Z (Qceiling range))%Q)
        by (eapply Qlt_le_trans; [exact Hpos | exact Hq]).
      rewrite <- Zlt_Qlt in Hlt. lia. }
    destruct (integerLessThan_bounds Inv source s (Qceiling range) Hsrc Hs Hc)
      as (r & s' & Hr & Hb & _).
    exists r, s'. split; [| split; [exact Hr | split; [exact Hb |]]].
    + rewrite <- Hr. rewrite integerLessThan_Z. reflexivity.
    + eapply Qle_lt_trans; [| apply Qceiling_lt].
      rewrite <- Zle_Qle. lia.
Qed.

Lemma integer_fractional_bounds_witness :
  reliable (fun _ => True) cyclic /\ True
  /\ (25 # 10 <= 72 # 10)%Q /\ (Qceiling (25 # 10) <= Qfloor (72 # 10))%Z
  /\ exists r s',
       integer cyclic (25 # 10) (72 # 10) 0
       = Ret (Int (Qceiling (25 # 10) + r), s')
       /\ (25 # 10 <= inject_Z (Qceiling (25 # 10) + r) <= 72 # 10)%Q.
Proof.
  split; [apply streamSource_reliable |]. split; [exact I |].
  split; [discriminate |]. split; [discriminate |].
  destruct (integer_fractional_bounds nat (fun _ => True) cyclic 0
              (25 # 10) (72 # 10) (streamSource_reliable _) I)
    as ((r & s' & _ & Hi & _ & Hq) & _);
    [discriminate | discriminate | discriminate | discriminate |].
  exists r, s'. split; [exact Hi | exact Hq].
Defined.

Example integer_fractional_run :
  integer cyclic (25 # 10) (72 # 10) 0 = Ret (Int 4, 4).
Proof. vm_compute. reflexivity. Qed.

(* ----------------------------------------------------------------- *)
(** *** Invalid ranges *)

Lemma limit_negative (range : Z) :
  (range < 0)%Z -> exists l, limit range = Int l /\ (maxUInt32 <= l)%Z.
Proof.
  intros H. unfold limit. destruct (Z.eqb_spec range 0); [lia |].
  eexists. split; [reflexivity |].
  pose proof (Z.div_mod maxUInt32 range ltac:(lia)) as Hdm.
  pose proof (Z.mod_neg_bound maxUInt32 range H). lia.
Qed.

Lemma rejectionSampling_negative {St} (Inv : St -> Prop)
  (source : RandomSource St) (s : St) (range : Z) :
  reliable Inv source -> Inv s -> (range < 0)%Z ->
  exists v s',
    uint32 source s = Ret (v, s')
    /\ rejectionSampling source range s = Ret (Int (v mod (- range)), s')
    /\ (0 <= v mod (- range) < - range)%Z.
Proof.
  intros Hsrc Hs Hneg.
  destruct (uint32_reliable Inv source Hsrc s Hs) as (v & s' & Hv & Hr & _).
  destruct (limit_negative range Hneg) as (l & Hl & Hbig).
  exists v, s'. split; [exact Hv |]. split.
  - unfold rejectionSampling. cbn [rejectionLoop]. unfold bind. rewrite Hv.
    change (maxIntegerIter <=? 0) with false. cbv iota.
    rewrite Hl. cbn [lessThan].
    rewrite (proj2 (Z.ltb_lt v l)) by lia. cbn [negb]. unfold ret.
    unfold remainder. destruct (Z.eqb_spec range 0); [lia |].
    replace range with (- - range)%Z at 1 by lia.
    rewrite Z.rem_opp_r by lia. rewrite Z.rem_mod_nonneg by lia. reflexivity.
  - apply Z.mod_pos_bound. lia.
Qed.

Lemma rejectionSampling_zero {St} (Inv : St -> Prop)
  (source : RandomSource St) (s : St) :
  reliable Inv source -> Inv s ->
  exists vs s',
    samples source (S maxIntegerIter) s = Ret (vs, s')
    /\ rejectionSampling source 0 s = Ret (NaN, s').
Proof.
  intros Hsrc Hs.
  destruct (rejectionLoop_spec Inv source Hsrc 0 (S maxIntegerIter) 0 s Hs)
    as (k & vs & v & s' & Hsam & Hloop & _ & Hk & Hik & _ & _ & Hacc);
    [lia | lia |].
  assert (k = S maxIntegerIter) as ->.
  { destruct (Nat.le_gt_cases k maxIntegerIter) as [Hle | Hgt]; [| lia].
    specialize (Hacc Hle). cbn in Hacc. discriminate. }
  exists (vs ++ [v]), s'. split; [exact Hsam |].
  unfold rejectionSampling, bind. rewrite Hloop. reflexivity.
Qed.

(** C4, as stated, fails: a negative range is not signalled.  On the source
    of the test-suite, [integerLessThan(-5)] returns 1, the very number
    [integerLessThan(5)] returns; and the signal of [integer(15, 5)] is the
    number [NaN]. *)
Lemma integerLessThan_negative_range_unsignalled :
  (exists t,
     integerLessThan createSource (inject_Z (-5)) (batchedInit tt)
     = Ret (Int 1, t)
     /\ integerLessThan createSource (inject_Z 5) (batchedInit tt)
        = Ret (Int 1, t))
  /\ integer createSource (inject_Z 15) (inject_Z 5) (batchedInit tt)
     = Ret (NaN, batchedInit tt).
Proof.
  split; [eexists; split; vm_compute; reflexivity | reflexivity].
Qed.

(** C4 (amended). [integer] with [min > max] returns the number [NaN]
    and draws nothing.  No call whose interval holds an integer returns
    [NaN]: it returns an integer; but [NaN] is also what [integer] returns,
    after 101 draws, when [min <= max] and no integer lies between them.
    [integerLessThan] does not check its range: with range 0 it returns
    [NaN] as well, after 101 draws, and with a negative integer range it
    accepts its first draw [v] and returns [v mod |range|], an integer of
    [0, |range|). *)
Theorem invalid_range_behaviour :
  forall (St : Type) (Inv : St -> Prop) (source : RandomSource St) (s : St),
    reliable Inv source -> Inv s ->
    (forall min max : Q, ~ (min <= max)%Q ->
       integer source min max s = Ret (NaN, s))
    /\ (forall min max : Q,
          (exists z : Z, (min <= inject_Z z <= max)%Q) ->
          exists z s', integer source min max s = Ret (Int z, s'))
    /\ (forall min max : Q,
          (min <= max)%Q -> ~ (exists z : Z, (min <= inject_Z z <= max)%Q) ->
          exists vs s',
            samples source (S maxIntegerIter) s = Ret (vs, s')
            /\ integer source min max s = Ret (NaN, s'))
    /\ (exists vs s',
          samples source (S maxIntegerIter) s = Ret (vs, s')
          /\ integerLessThan source (inject_Z 0) s = Ret (NaN, s'))
    /\ (forall range : Z, (range < 0)%Z ->
          exists v s',
            uint32 source s = Ret (v, s')
            /\ integerLessThan source (inject_Z range) s
               = Ret (Int (v mod (- range)), s')
            /\ (0 <= v mod (- range) < - range)%Z).
Proof.
  intros St Inv source s Hsrc Hs.
  split; [| split; [| split; [| split]]].
  - intros min max Hgt. unfold integer.
    destruct (Qle_bool min max) eqn:E; [| reflexivity].
    apply Qle_bool_iff in E. contradiction.
  - intros min max (z & H1 & H2).
    assert (Hle : (min <= max)%Q) by (eapply Qle_trans; eassumption).
    assert (Hlh : (Qceiling min <= Qfloor max)%Z).
    { apply ceiling_least in H1. apply floor_greatest in H2. lia. }
    destruct (integer_spec Inv source s min max Hsrc Hs Hle Hlh)
      as (r & s' & _ & Hi & _). eauto.
  - intros min max Hle Hnone.
    assert (Hrange : (Qfloor max - Qceiling min + 1 = 0)%Z).
    { pose proof (ceiling_floor_gap min max Hle).
      destruct (Z_le_gt_dec (Qceiling min) (Qfloor max)) as [Hlh | Hhl];
        [| lia].
      exfalso. apply Hnone. exists (Qceiling min). split.
      - apply Qle_ceiling.
      - eapply Qle_trans; [| apply Qfloor_le]. rewrite <- Zle_Qle. exact Hlh. }
    destruct (rejectionSampling_zero Inv source s Hsrc Hs)
      as (vs & s' & Hsam & Hzero).
    exists vs, s'. split; [exact Hsam |].
    unfold integer. rewrite (proj2 (Qle_bool_iff min max) Hle).
    rewrite Hrange, integerLessThan_Z. unfold bind. rewrite Hzero.
    reflexivity.
  - rewrite integerLessThan_Z. apply (rejectionSampling_zero Inv); assumption.
  - intros range Hneg. rewrite integerLessThan_Z.
    apply (rejectionSampling_negative Inv); assumption.
Qed.

Lemma invalid_range_behaviour_witness :
  reliable (fun _ => True) cyclic /\ True
  /\ integer cyclic (inject_Z 15) (inject_Z 5) 0 = Ret (NaN, 0).
Proof.
  split; [apply streamSource_reliable |]. split; [exact I |].
  apply (proj1 (invalid_range_behaviour nat (fun _ => True) cyclic 0
                  (streamSource_reliable _) I)).
  intros H. unfold Qle in H. cbn in H. lia.
Defined.

(* ================================================================= *)
(** ** The alphabet formatter *)

(** An index selects a character exactly when it is below the length of
    the alphabet; any other index contributes nothing. *)
Lemma charAt_spec (alphabet : str) (idx : Z) :
  (forall c, charAt alphabet idx = [c] <->
             (0 <= idx < Z.of_nat (List.length alphabet))%Z
             /\ nth_error alphabet (Z.to_nat idx) = Some c)
  /\ (charAt alphabet idx = [] <->
      ~ (0 <= idx < Z.of_nat (List.length alphabet))%Z)
  /\ List.length (charAt alphabet idx) <= 1
  /\ Forall (fun c => In c alphabet) (charAt alphabet idx).
Proof.
  unfold charAt. destruct (Z.ltb_spec idx 0) as [Hneg | Hpos].
  - split; [| split; [| split]].
    + intros c. split; [discriminate | intros [? _]; lia].
    + split; [intros _ ?; lia | reflexivity].
    + cbn. lia.
    + constructor.
  - destruct (nth_error alphabet (Z.to_nat idx)) as [c0 |] eqn:E.
    + assert (Hlt : Z.to_nat idx < List.length alphabet)
        by (apply nth_error_Some; congruence).
      split; [| split; [| split]].
      * intros c. split.
        -- intros H. injection H as <-. split; [lia | reflexivity].
        -- intros [_ H]. congruence.
      * split; [discriminate | intros H; exfalso; apply H; lia].
      * cbn. lia.
      * constructor; [eapply nth_error_In; exact E | constructor].
    + assert (Hge : List.length alphabet <= Z.to_nat idx)
        by (apply nth_error_None; assumption).
      split; [| split; [| split]].
      * intros c. split; [discriminate | intros [_ H]; congruence].
      * split; [intros _ ?; lia | reflexivity].
      * cbn. lia.
      * constructor.
Qed.

Lemma batchChars_in (i : nat) (bytes : Uint8Array) (mask : Z) (alphabet : str) :
  Forall (fun c => In c alphabet) (batchChars i bytes mask alphabet).
Proof.
  induction i as [| i IH]; cbn; [constructor |].
  apply Forall_app. split; [apply charAt_spec | exact IH].
Qed.

(** The inner loop, in terms of the characters the batch offers. *)
Lemma scan_spec (bytes : Uint8Array) (mask : Z) (alphabet : str) (size : nat) :
  forall i id,
    List.length id < size ->
    scan i bytes mask alphabet size id
    = if size - List.length id <=? List.length (batchChars i bytes mask alphabet)
      then inl (id ++ firstn (size - List.length id)
                        (batchChars i bytes mask alphabet))
      else inr (id ++ batchChars i bytes mask alphabet).
Proof.
  induction i as [| i IH]; intros id Hid.
  - cbn. destruct (Nat.leb_spec (size - List.length id) 0); [lia |].
    now rewrite app_nil_r.
  - cbn [scan batchChars].
    pose proof (charAt_spec alphabet (maskedByte bytes i mask))
      as (_ & _ & Hone & _).
    destruct (charAt alphabet (maskedByte bytes i mask)) as [| c [| c' l]];
      cbn [List.length] in Hone; try lia.
    + rewrite app_nil_r. cbn [app].
      destruct (Nat.eqb_spec (List.length id) size); [lia |].
      apply IH. exact Hid.
    + rewrite length_app. cbn [List.length app].
      destruct (Nat.eqb_spec (List.length id + 1) size) as [Heq | Hne].
      * replace (size - List.length id) with 1 by lia.
        cbn [Nat.leb firstn]. reflexivity.
      * rewrite IH by (rewrite length_app; cbn; lia).
        rewrite length_app. cbn [List.length].
        replace (size - List.length id) with (S (size - (List.length id + 1)))
          by lia.
        cbn [Nat.leb firstn]. rewrite <- !app_assoc. reflexivity.
Qed.

Lemma scan_sound (bytes : Uint8Array) (mask : Z) (alphabet : str) (size : nat) :
  forall i id,
    Forall (fun c => In c alphabet) id ->
    match scan i bytes mask alphabet size id with
    | inl r => List.length r = size /\ Forall (fun c => In c alphabet) r
    | inr id' => Forall (fun c => In c alphabet) id'
    end.
Proof.
  induction i as [| i IH]; intros id Hid; cbn [scan]; [exact Hid |].
  assert (Hid' : Forall (fun c => In c alphabet)
                   (id ++ charAt alphabet (maskedByte bytes i mask)))
    by (apply Forall_app; split; [exact Hid | apply charAt_spec]).
  destruct (Nat.eqb_spec
              (List.length (id ++ charAt alphabet (maskedByte bytes i mask)))
              size) as [Heq | Hne].
  - split; assumption.
  - apply IH. exact Hid'.
Qed.

Section Format.
Context {St : Type} (source : RandomSource St).

Lemma formatLoop_sound (step : nat) (mask : Z) (alphabet : str) (size : nat) :
  forall fuel id s r s',
    Forall (fun c => In c alphabet) id ->
    formatLoop source fuel step mask alphabet size id s = Ret (r, s') ->
    List.length r = size /\ Forall (fun c => In c alphabet) r.
Proof.
  induction fuel as [| fuel IH]; intros id s r s' Hid H; [discriminate |].
  cbn [formatLoop] in H. unfold bind in H.
  destruct (source step s) as [[bytes s1] | |]; try discriminate.
  pose proof (scan_sound bytes mask alphabet size step id Hid) as Hscan.
  destruct (scan step bytes mask alphabet size id) as [r0 | id'].
  - unfold ret in H. injection H as <- <-. exact Hscan.
  - eapply IH; eassumption.
Qed.

Lemma formatLoop_spec (step : nat) (mask : Z) (alphabet : str) (size : nat) :
  forall k id s cs sk,
    List.length id < size ->
    offered source k step mask alphabet s = Ret (cs, sk) ->
    (size - List.length id <= List.length cs ->
     exists s', formatLoop source k step mask alphabet size id s
                = Ret (id ++ firstn (size - List.length id) cs, s'))
    /\ (List.length cs < size - List.length id ->
        formatLoop source k step mask alphabet size id s = OutOfFuel).
Proof.
  induction k as [| k IH]; intros id s cs sk Hid Hoff.
  - cbn in Hoff. unfold ret in Hoff. injection Hoff as <- <-.
    cbn. split; [lia | reflexivity].
  - cbn [offered] in Hoff. cbn [formatLoop]. unfold bind in *.
    destruct (source step s) as [[bytes s1] | |]; try discriminate.
    destruct (offered source k step mask alphabet s1) as [[rest s2] | |] eqn:Erest;
      try discriminate.
    unfold ret in Hoff. injection Hoff as <- <-.
    rewrite scan_spec by exact Hid.
    set (bc := batchChars step bytes mask alphabet).
    rewrite length_app.
    destruct (Nat.leb_spec (size - List.length id) (List.length bc)) as [Hle | Hgt].
    + split; [| lia]. intros _. exists s1. unfold ret. do 2 f_equal.
      rewrite firstn_app.
      replace (size - List.length id - List.length bc) with 0 by lia.
      now rewrite firstn_0, app_nil_r.
    + destruct (IH (id ++ bc) s1 rest s2
                  ltac:(rewrite length_app; lia) Erest) as [IH1 IH2].
      rewrite length_app in IH1, IH2.
      split.
      * intros Hlen. destruct IH1 as (s' & Hs'); [lia |].
        exists s'. rewrite Hs'. do 2 f_equal.
        rewrite <- app_assoc. f_equal.
        rewrite firstn_app, (firstn_all2 (n := size - List.length id) bc) by lia.
        do 2 f_equal. lia.
      * intros Hlen. apply IH2. lia.
Qed.

End Format.

Lemma step_zero (mask : Z) (alphabetLength : nat) :
  step mask 0 alphabetLength = 0.
Proof.
  unfold step, ceil. change (toNumber (Z.of_nat 0)) with 0%float.
  rewrite div_spec, mul_spec. change (Prim2SF 0) with (S754_zero false).
  destruct (Prim2SF (0x1.999999999999ap+0 * toNumber mask));
    destruct (Prim2SF (toNumber (Z.of_nat alphabetLength)));
    reflexivity.
Qed.

(** With an empty batch the outer loop never ends. *)
Lemma formatLoop_step_zero {St} (source : RandomSource St) (mask : Z)
  (alphabet : str) (size : nat) :
  forall fuel id s r s',
    formatLoop source fuel 0 mask alphabet size id s <> Ret (r, s').
Proof.
  induction fuel as [| fuel IH]; intros id s r s'; [discriminate |].
  cbn [formatLoop scan]. unfold bind.
  destruct (source 0 s) as [[bytes s1] | |]; try discriminate.
  apply IH.
Qed.

(** [format] with size 0 returns nothing, whatever the fuel: the test
    [id.length === +size] is only made after a byte has been read, and the
    batches are empty. *)
Lemma format_size_zero {St} (source : RandomSource St) (alphabet : str) :
  forall fuel s r s', format source fuel alphabet 0 s <> Ret (r, s').
Proof.
  intros fuel s r s'. unfold format. rewrite step_zero.
  apply formatLoop_step_zero.
Qed.

(** On the source that only yields 255, no byte is accepted by "abc":
    255 & 3 = 3 is not an index of the alphabet. *)
Lemma format_abc_allOnes :
  forall fuel s, format allOnes fuel abc 1 s = OutOfFuel.
Proof.
  intros fuel s. unfold format.
  change (mask (List.length abc)) with 3%Z.
  replace (step 3 1 (List.length abc)) with 2 by (vm_compute; reflexivity).
  revert s. induction fuel as [| fuel IH]; intros s; [reflexivity |].
  cbn [formatLoop]. unfold bind, allOnes, streamSource.
  change (scan 2 (fromBytes (map (fun _ : nat => xff) (seq s 2))) 3 abc 1 [])
    with (@inr str str []).
  apply IH.
Qed.

(** C2, as stated, fails: there are byte sources on which [format] does
    not terminate. *)
Lemma format_not_total :
  diverges (fun fuel => format allOnes fuel abc 1) 0.
Proof.
  intros fuel. apply format_abc_allOnes.
Qed.

(** C2 (amended). For every byte source, every non-empty alphabet [A] and
    every size [n >= 1]: a string that [format] returns has length exactly
    [n] and only characters of [A]; [format] returns, after [k] batches at
    most, exactly when the first [k] batches offer at least [n] accepted
    bytes, and then returns the first [n] characters they select; a byte
    selects a character only through an index [b & mask] below the length of
    [A], and contributes nothing otherwise. *)
Theorem format_spec :
  forall (St : Type) (source : RandomSource St) (alphabet : str) (size : nat)
         (s : St),
    alphabet <> [] -> 1 <= size ->
    (forall fuel r s',
       format source fuel alphabet size s = Ret (r, s') ->
       List.length r = size /\ Forall (fun c => In c alphabet) r)
    /\ (forall k cs sk,
          offered source k
            (step (mask (List.length alphabet)) size (List.length alphabet))
            (mask (List.length alphabet)) alphabet s = Ret (cs, sk) ->
          (size <= List.length cs ->
           exists s', format source k alphabet size s = Ret (firstn size cs, s'))
          /\ (List.length cs < size ->
              format source k alphabet size s = OutOfFuel))
    /\ (forall idx c,
          charAt alphabet idx = [c] ->
          (0 <= idx < Z.of_nat (List.length alphabet))%Z
          /\ nth_error alphabet (Z.to_nat idx) = Some c)
    /\ (forall idx,
          ~ (0 <= idx < Z.of_nat (List.length alphabet))%Z ->
          charAt alphabet idx = []).
Proof.
  intros St source alphabet size s Hne Hsize.
  split; [| split; [| split]].
  - intros fuel r s' H. unfold format in H.
    eapply formatLoop_sound; [constructor | exact H].
  - intros k cs sk Hoff. unfold format.
    destruct (formatLoop_spec source _ _ alphabet size k [] s cs sk
                ltac:(cbn; lia) Hoff) as [H1 H2].
    cbn [List.length app] in H1, H2. rewrite Nat.sub_0_r in H1, H2.
    split; assumption.
  - intros idx c H. apply (proj1 (charAt_spec alphabet idx)). exact H.
  - intros idx H. apply (proj1 (proj2 (charAt_spec alphabet idx))). exact H.
Qed.

Lemma format_spec_witness :
  abc <> [] /\ 1 <= 5
  /\ exists s', format cyclic 1 abc 5 0
                = Ret (list_ascii_of_string "acbac", s').
Proof.
  split; [discriminate |]. split; [lia |].
  destruct (format_spec nat cyclic abc 5 0 ltac:(discriminate) ltac:(lia))
    as (_ & Hterm & _).
  destruct (Hterm 1 (list_ascii_of_string "acbacba") 9 eq_refl) as [Hret _].
  destruct (Hret ltac:(cbn; lia)) as (s' & Hs').
  exists s'. exact Hs'.
Defined.

(* ================================================================= *)
(** ** The pattern composer *)

Lemma insertSorted_perm (randoms : list Z) (a : nat) (l : list nat) :
  Permutation (insertSorted randoms a l) (a :: l).
Proof.
  induction l as [| b l IH]; cbn; [reflexivity |].
  destruct (nth a randoms 0 <=? nth b randoms 0)%Z; [reflexivity |].
  rewrite IH. apply perm_swap.
Qed.

(** Sorting the positions permutes them, whatever the random keys. *)
Lemma sortPositions_perm (randoms : list Z) (positions : list nat) :
  Permutation (sortPositions randoms positions) positions.
Proof.
  induction positions as [| a l IH]; cbn; [reflexivity |].
  rewrite insertSorted_perm. now constructor.
Qed.

Lemma pick_seq (pre chars : str) :
  pick (pre ++ chars) (seq (List.length pre) (List.length chars)) = chars.
Proof.
  revert pre. induction chars as [| c chars IH]; intros pre; [reflexivity |].
  cbn [List.length seq pick flat_map].
  rewrite nth_error_app2, Nat.sub_diag by lia. cbn [nth_error app].
  f_equal. specialize (IH (pre ++ [c])).
  rewrite <- app_assoc, length_app, Nat.add_1_r in IH. exact IH.
Qed.

Lemma pick_perm (chars : str) (positions : list nat) :
  Permutation positions (seq 0 (List.length chars)) ->
  Permutation (pick chars positions) chars.
Proof.
  intros H. unfold pick. rewrite H. apply Permutation_refl'.
  exact (pick_seq [] chars).
Qed.

Lemma Forall2_In_r {A B} (P : A -> B -> Prop) (l1 : list A) (l2 : list B) :
  Forall2 P l1 l2 -> forall y, In y l2 -> exists x, In x l1 /\ P x y.
Proof.
  induction 1 as [| x y l1 l2 Hxy _ IH]; intros z Hz; [contradiction |].
  destruct Hz as [<- | Hz].
  - exists x. split; [now left | exact Hxy].
  - destruct (IH z Hz) as (x' & Hin & Hp). exists x'. split; [now right | exact Hp].
Qed.

Section Pattern.
Context {St : Type} (source : RandomSource St).

Lemma format_sound (fuel : nat) (alphabet : str) (size : nat) (s : St)
  (r : str) (s' : St) :
  format source fuel alphabet size s = Ret (r, s') ->
  List.length r = size /\ Forall (fun c => In c alphabet) r.
Proof.
  intros H. unfold format in H.
  eapply formatLoop_sound; [constructor | exact H].
Qed.

Lemma onePerSubpattern_sound (fuel : nat) :
  forall patterns buf s r s',
    onePerSubpattern source fuel patterns buf s = Ret (r, s') ->
    exists cs, r = buf ++ cs
               /\ Forall2 (fun c subpattern => In c subpattern) cs patterns.
Proof.
  induction patterns as [| sub rest IH]; intros buf s r s' H.
  - cbn in H. unfold ret in H. injection H as <- <-.
    exists []. split; [now rewrite app_nil_r | constructor].
  - cbn [onePerSubpattern] in H. unfold bind in H.
    destruct (format source fuel sub 1 s) as [[c s1] | |] eqn:Ec;
      try discriminate.
    apply format_sound in Ec. destruct Ec as [Hlen Hin].
    destruct c as [| x [| y c]]; cbn in Hlen; try discriminate.
    apply IH in H. destruct H as (cs & -> & Hcs).
    exists (x :: cs). split; [now rewrite <- app_assoc |].
    constructor; [now inversion Hin | exact Hcs].
Qed.

Lemma drawRandoms_length :
  forall positions s rs s',
    drawRandoms source positions s = Ret (rs, s') ->
    List.length rs = List.length positions.
Proof.
  induction positions as [| p ps IH]; intros s rs s' H.
  - cbn in H. unfold ret in H. now injection H as <- <-.
  - cbn [drawRandoms] in H. unfold bind in H.
    destruct (uint32 source s) as [[v s1] | |]; try discriminate.
    destruct (drawRandoms source ps s1) as [[vs s2] | |] eqn:E;
      try discriminate.
    unfold ret in H. injection H as <- <-. cbn. f_equal. eapply IH, E.
Qed.

(** Whatever [pattern] returns for a list of sub-alphabets that fits in
    the requested length is a permutation of one character of each
    sub-alphabet followed by the remaining characters. *)
Lemma pattern_sound (fuel len : nat) (alphabets : list str) (s : St)
  (r : str) (s' : St) :
  List.length alphabets <= len ->
  pattern source fuel len (Multi alphabets) s = Ret (r, s') ->
  List.length r = len
  /\ Forall (fun subpattern => exists c, In c subpattern /\ In c r) alphabets.
Proof.
  intros Hn H. cbn [pattern] in H.
  destruct (Nat.ltb_spec len (List.length alphabets)); [lia |].
  unfold bind in H.
  destruct (onePerSubpattern source fuel alphabets [] s) as [[buf s1] | |] eqn:E1;
    try discriminate.
  destruct (format source fuel (join alphabets) (len - List.length alphabets) s1)
    as [[rest s2] | |] eqn:E2; try discriminate.
  destruct (drawRandoms source (seq 0 (List.length (buf ++ rest))) s2)
    as [[randoms s3] | |] eqn:E3; try discriminate.
  unfold ret in H. injection H as <- <-.
  apply onePerSubpattern_sound in E1. destruct E1 as (cs & -> & Hcs).
  cbn [app] in *.
  apply format_sound in E2. destruct E2 as [Hrest _].
  assert (Hperm : Permutation
                    (pick (cs ++ rest)
                       (sortPositions randoms
                          (seq 0 (List.length (cs ++ rest)))))
                    (cs ++ rest))
    by (apply pick_perm, sortPositions_perm).
  split.
  - rewrite (Permutation_length Hperm), length_app, Hrest.
    pose proof (Forall2_length Hcs) as Hl. unfold str in *. lia.
  - apply Forall_forall. intros sub Hsub.
    destruct (Forall2_In_r _ _ _ Hcs sub Hsub) as (c & Hc & Hin).
    exists c. split; [exact Hin |].
    eapply Permutation_in; [symmetry; exact Hperm |].
    apply in_or_app. now left.
Qed.

(** When the requested length equals the number of sub-alphabets the
    remainder is formatted with size 0, and nothing is returned. *)
Lemma pattern_size_n (fuel : nat) (alphabets : list str) (s : St)
  (r : str) (s' : St) :
  pattern source fuel (List.length alphabets) (Multi alphabets) s <> Ret (r, s').
Proof.
  cbn [pattern]. rewrite Nat.ltb_irrefl, Nat.sub_diag. unfold bind.
  destruct (onePerSubpattern source fuel alphabets [] s) as [[buf s1] | |];
    try discriminate.
  destruct (format source fuel (join alphabets) 0 s1) as [[rest s2] | |] eqn:E;
    try discriminate.
  exfalso. exact (format_size_zero source _ _ _ _ _ E).
Qed.

End Pattern.

(** *** Termination on sources that keep offering accepted bytes *)

Section Productive.
Context {St : Type} (Inv : St -> Prop) (source : RandomSource St).

Lemma formatLoop_terminates (alphabet : str) (step size : nat) :
  offering Inv source alphabet step ->
  forall fuel id s,
    Inv s -> List.length id < size -> size - List.length id <= fuel ->
    exists r s',
      formatLoop source fuel step (mask (List.length alphabet)) alphabet size id s
      = Ret (r, s') /\ Inv s'.
Proof.
  intros Hoff. induction fuel as [| fuel IH]; intros id s Hs Hid Hfuel; [lia |].
  destruct (Hoff s Hs) as (bytes & s1 & Hdraw & Hs1 & Hbc).
  cbn [formatLoop]. unfold bind. rewrite Hdraw.
  rewrite scan_spec by exact Hid.
  set (bc := batchChars step bytes (mask (List.length alphabet)) alphabet) in *.
  assert (Hpos : 1 <= List.length bc) by (destruct bc; [congruence | cbn; lia]).
  destruct (Nat.leb_spec (size - List.length id) (List.length bc)).
  - eexists. exists s1. split; [reflexivity | exact Hs1].
  - apply IH; [exact Hs1 | |]; rewrite length_app; lia.
Qed.

Lemma format_terminates (alphabet : str) (size fuel : nat) (s : St) :
  formatReady Inv source alphabet size -> Inv s -> 1 <= size -> size <= fuel ->
  exists r s', format source fuel alphabet size s = Ret (r, s') /\ Inv s'.
Proof.
  intros Hready Hs Hsize Hfuel. unfold format.
  apply formatLoop_terminates; cbn [List.length]; try assumption; lia.
Qed.

Lemma onePerSubpattern_terminates (fuel : nat) :
  1 <= fuel ->
  forall patterns buf s,
    (forall sub, In sub patterns -> formatReady Inv source sub 1) -> Inv s ->
    exists r s',
      onePerSubpattern source fuel patterns buf s = Ret (r, s') /\ Inv s'.
Proof.
  intros Hfuel. induction patterns as [| sub rest IH]; intros buf s Hready Hs.
  - exists buf, s. split; [reflexivity | exact Hs].
  - destruct (format_terminates sub 1 fuel s (Hready sub (or_introl eq_refl))
                Hs (le_n 1) Hfuel) as (c & s1 & Hc & Hs1).
    cbn [onePerSubpattern]. unfold bind. rewrite Hc.
    apply IH; [| exact Hs1]. intros sub' Hin. apply Hready. now right.
Qed.

Lemma drawRandoms_terminates :
  reliable Inv source ->
  forall positions s,
    Inv s ->
    exists rs s', drawRandoms source positions s = Ret (rs, s') /\ Inv s'.
Proof.
  intros Hsrc. induction positions as [| p ps IH]; intros s Hs.
  - exists [], s. split; [reflexivity | exact Hs].
  - destruct (uint32_reliable Inv source Hsrc s Hs) as (v & s1 & Hv & _ & Hs1).
    destruct (IH s1 Hs1) as (rs & s2 & Hrs & Hs2).
    exists (v :: rs), s2. cbn [drawRandoms]. unfold bind. rewrite Hv, Hrs.
    split; [reflexivity | exact Hs2].
Qed.

Lemma pattern_terminates (fuel len : nat) (alphabets : list str) (s : St) :
  reliable Inv source -> Inv s ->
  (forall sub, In sub alphabets -> formatReady Inv source sub 1) ->
  formatReady Inv source (join alphabets) (len - List.length alphabets) ->
  List.length alphabets < len -> len <= fuel ->
  exists r s',
    pattern source fuel len (Multi alphabets) s = Ret (r, s') /\ Inv s'.
Proof.
  intros Hsrc Hs Hsubs Hjoin Hn Hfuel. cbn [pattern].
  destruct (Nat.ltb_spec len (List.length alphabets)); [lia |].
  destruct (onePerSubpattern_terminates fuel ltac:(lia) alphabets [] s Hsubs Hs)
    as (buf & s1 & Hbuf & Hs1).
  destruct (format_terminates (join alphabets) (len - List.length alphabets)
              fuel s1 Hjoin Hs1 ltac:(lia) ltac:(lia))
    as (rest & s2 & Hrest & Hs2).
  destruct (drawRandoms_terminates Hsrc (seq 0 (List.length (buf ++ rest))) s2 Hs2)
    as (rs & s3 & Hrs & Hs3).
  unfold bind. rewrite Hbuf, Hrest, Hrs.
  eexists. exists s3. split; [reflexivity | exact Hs3].
Qed.

End Productive.

(** C3, as stated, fails: there are byte sources on which [pattern] does
    not terminate, also when the length exceeds the number of
    sub-alphabets. *)
Lemma pattern_not_total :
  diverges (fun fuel => pattern allOnes fuel 3 (Multi [abc; digits])) 0.
Proof.
  intros fuel. cbn [pattern List.length Nat.ltb Nat.leb onePerSubpattern].
  unfold bind at 1. unfold bind at 1.
  rewrite format_abc_allOnes. reflexivity.
Qed.

(** C3 (amended). For every byte source and every list of n >= 1
    sub-alphabets: a string that [pattern] returns for a size
    >= n has length exactly size and holds at least one character of each
    sub-alphabet.  For size > n, on a reliable source whose batches keep
    offering a byte accepted by each sub-alphabet and by their
    concatenation, [pattern] terminates and returns such a string. *)
Theorem pattern_spec :
  forall (St : Type) (Inv : St -> Prop) (source : RandomSource St)
         (alphabets : list str) (len : nat) (s : St),
    alphabets <> [] -> List.length alphabets <= len ->
    (forall fuel r s',
       pattern source fuel len (Multi alphabets) s = Ret (r, s') ->
       List.length r = len
       /\ Forall (fun sub => exists c, In c sub /\ In c r) alphabets)
    /\ (reliable Inv source -> Inv s ->
        (forall sub, In sub alphabets -> formatReady Inv source sub 1) ->
        formatReady Inv source (join alphabets) (len - List.length alphabets) ->
        List.length alphabets < len ->
        forall fuel, len <= fuel ->
          exists r s',
            pattern source fuel len (Multi alphabets) s = Ret (r, s')
            /\ List.length r = len
            /\ Forall (fun sub => exists c, In c sub /\ In c r) alphabets).
Proof.
  intros St Inv source alphabets len s Hne Hn.
  split.
  - intros fuel r s' H. eapply pattern_sound; eassumption.
  - intros Hsrc Hs Hready Hjoin Hlt fuel Hfuel.
    destruct (pattern_terminates Inv source fuel len alphabets s
                Hsrc Hs Hready Hjoin Hlt Hfuel) as (r & s' & Hr & _).
    exists r, s'. split; [exact Hr |]. eapply pattern_sound; eassumption.
Qed.

(** The source of zeros offers the first character of any non-empty
    alphabet. *)
Lemma zeros_offering (alphabet : str) (step : nat) :
  alphabet <> [] -> 1 <= step -> offering (fun _ => True) zeros alphabet step.
Proof.
  intros Hne Hstep s _. eexists. eexists.
  split; [reflexivity |]. split; [exact I |].
  destruct step as [| i]; [lia |]. cbn [batchChars].
  unfold maskedByte, get. rewrite elements_fromBytes.
  rewrite nth_error_map, nth_error_seq.
  destruct (Nat.ltb_spec i (S i)); [| lia]. cbn [option_map].
  change (byteZ x00) with 0%Z. rewrite Z.land_0_l.
  destruct alphabet as [| a l]; [congruence |]. discriminate.
Qed.

Lemma pattern_spec_witness :
  [abc; digits] <> [] /\ 2 <= 3
  /\ exists r s',
      pattern zeros 3 3 (Multi [abc; digits]) 0 = Ret (r, s')
      /\ List.length r = 3
      /\ Forall (fun sub => exists c, In c sub /\ In c r) [abc; digits].
Proof.
  split; [discriminate |]. split; [lia |].
  refine (proj2 (pattern_spec nat (fun _ => True) zeros [abc; digits] 3 0
                   ltac:(discriminate) ltac:(cbn; lia))
            (streamSource_reliable _) I _ _ _ 3 _).
  - intros sub Hin. apply zeros_offering.
    + destruct Hin as [<- | [<- | []]]; discriminate.
    + destruct Hin as [<- | [<- | []]]; vm_compute; lia.
  - apply zeros_offering; [discriminate | vm_compute; lia].
  - cbn. lia.
  - lia.
Defined.

Example pattern_run :
  exists t t',
    pattern createSource 10 3 (Multi [abc; digits]) (batchedInit tt)
    = Ret (list_ascii_of_string "b33", t)
    /\ pattern createSource 10 8 lowercaseAlphabetNumber (batchedInit tt)
       = Ret (list_ascii_of_string "b4vutsrq", t').
Proof. eexists. eexists. split; vm_compute; reflexivity. Qed.

(* ================================================================= *)
(** ** Unique patterns *)

(** C1. The loop that handles an exclusion list tests one pattern against
    the list and then adds another, freshly generated one to the result:
    [uniquePatterns] returns excluded strings.  On the source of the
    test-suite, with "a" excluded, it returns ["a"]; on a source that yields
    the bytes of "aaaa" and then those of "abcd", with "abcd" and "efgh"
    excluded, it returns ["abcd"]. *)
Theorem uniquePatterns_returns_excluded :
  (exists t,
     uniquePatterns createSource 2 1 1 (Single ab) (Some [onlyA])
       (batchedInit tt)
     = Ret ([onlyA], t)
     /\ In onlyA [onlyA])
  /\ (exists s',
        uniquePatterns script 1 1 4 (Single abcdefgh) (Some [abcd; efgh]) 0
        = Ret ([abcd], s')
        /\ In abcd [abcd; efgh]).
Proof.
  split.
  - eexists. split; [vm_compute; reflexivity | now left].
  - eexists. split; [vm_compute; reflexivity | now left].
Qed.

(** The two patterns drawn in that run: the one that is tested and the one
    that is kept. *)
Example uniquePatterns_two_draws :
  pattern script 1 4 (Single abcdefgh) 0
  = Ret (list_ascii_of_string "aaaa", 6)
  /\ pattern script 1 4 (Single abcdefgh) 6 = Ret (abcd, 12).
Proof. split; vm_compute; reflexivity. Qed.

(* ================================================================= *)
(** ** Determinism *)

Section Determinism.
Context {St1 St2 : Type} (R : St1 -> St2 -> Prop).
Context (source1 : RandomSource St1) (source2 : RandomSource St2).
Hypothesis Hsame : sameBytes R source1 source2.

Lemma sim_ret {A} (a : A) (s1 : St1) (s2 : St2) :
  R s1 s2 -> sim R (ret a s1) (ret a s2).
Proof. intros H. cbn. auto. Qed.

Lemma sim_bind {A B} (m1 : M St1 A) (m2 : M St2 A)
  (k1 : A -> M St1 B) (k2 : A -> M St2 B) (s1 : St1) (s2 : St2) :
  sim R (m1 s1) (m2 s2) ->
  (forall a t1 t2, R t1 t2 -> sim R (k1 a t1) (k2 a t2)) ->
  sim R (bind m1 k1 s1) (bind m2 k2 s2).
Proof.
  intros Hm Hk. unfold bind.
  destruct (m1 s1) as [[a1 t1] | |], (m2 s2) as [[a2 t2] | |];
    cbn in Hm; try contradiction; try exact I.
  destruct Hm as [<- Ht]. apply Hk. exact Ht.
Qed.

Lemma sim_getUint (w : nat) (u : Uint8Array) (s1 : St1) (s2 : St2) :
  R s1 s2 ->
  sim R (match getUint w (buffer u) 0 with
         | Ret v => Ret (v, s1) | RangeError => RangeError
         | OutOfFuel => OutOfFuel end)
        (match getUint w (buffer u) 0 with
         | Ret v => Ret (v, s2) | RangeError => RangeError
         | OutOfFuel => OutOfFuel end).
Proof.
  intros H. destruct (getUint w (buffer u) 0); cbn; auto.
Qed.

Lemma uint8_sim s1 s2 : R s1 s2 -> sim R (uint8 source1 s1) (uint8 source2 s2).
Proof.
  intros H. apply sim_bind; [apply Hsame, H |].
  intros u t1 t2 Ht. apply (sim_getUint 1), Ht.
Qed.

Lemma uint16_sim s1 s2 : R s1 s2 -> sim R (uint16 source1 s1) (uint16 source2 s2).
Proof.
  intros H. apply sim_bind; [apply Hsame, H |].
  intros u t1 t2 Ht. apply (sim_getUint 2), Ht.
Qed.

Lemma uint32_sim s1 s2 : R s1 s2 -> sim R (uint32 source1 s1) (uint32 source2 s2).
Proof.
  intros H. apply sim_bind; [apply Hsame, H |].
  intros u t1 t2 Ht. apply (sim_getUint 4), Ht.
Qed.

Lemma uint64_sim s1 s2 : R s1 s2 -> sim R (uint64 source1 s1) (uint64 source2 s2).
Proof.
  intros H. apply sim_bind; [apply Hsame, H |].
  intros u t1 t2 Ht. apply (sim_getUint 8), Ht.
Qed.

Lemma rejectionLoop_sim (range : Z) :
  forall fuel i s1 s2,
    R s1 s2 ->
    sim R (rejectionLoop source1 fuel i range s1)
          (rejectionLoop source2 fuel i range s2).
Proof.
  induction fuel as [| fuel IH]; intros i s1 s2 H; [exact I |].
  cbn [rejectionLoop]. apply sim_bind; [apply uint32_sim, H |].
  intros sample t1 t2 Ht.
  destruct (maxIntegerIter <=? i); [apply sim_ret, Ht |].
  destruct (negb (lessThan sample (limit range)));
    [apply IH, Ht | apply sim_ret, Ht].
Qed.

Lemma integerLessThan_sim (range : Q) s1 s2 :
  R s1 s2 ->
  sim R (integerLessThan source1 range s1) (integerLessThan source2 range s2).
Proof.
  intros H. unfold integerLessThan, rejectionSampling.
  apply sim_bind; [apply rejectionLoop_sim, H |].
  intros sample t1 t2 Ht. apply sim_ret, Ht.
Qed.

Lemma integer_sim (min max : Q) s1 s2 :
  R s1 s2 ->
  sim R (integer source1 min max s1) (integer source2 min max s2).
Proof.
  intros H. unfold integer.
  destruct (Qle_bool min max); [| apply sim_ret, H].
  apply sim_bind; [apply integerLessThan_sim, H |].
  intros r t1 t2 Ht. apply sim_ret, Ht.
Qed.

Lemma formatLoop_sim (step : nat) (mask : Z) (alphabet : str) (size : nat) :
  forall fuel id s1 s2,
    R s1 s2 ->
    sim R (formatLoop source1 fuel step mask alphabet size id s1)
          (formatLoop source2 fuel step mask alphabet size id s2).
Proof.
  induction fuel as [| fuel IH]; intros id s1 s2 H; [exact I |].
  cbn [formatLoop]. apply sim_bind; [apply Hsame, H |].
  intros bytes t1 t2 Ht.
  destruct (scan step bytes mask alphabet size id);
    [apply sim_ret, Ht | apply IH, Ht].
Qed.

Lemma format_sim (fuel : nat) (alphabet : str) (size : nat) s1 s2 :
  R s1 s2 ->
  sim R (format source1 fuel alphabet size s1)
        (format source2 fuel alphabet size s2).
Proof.
  intros H. unfold format. apply formatLoop_sim, H.
Qed.

Lemma onePerSubpattern_sim (fuel : nat) :
  forall patterns buf s1 s2,
    R s1 s2 ->
    sim R (onePerSubpattern source1 fuel patterns buf s1)
          (onePerSubpattern source2 fuel patterns buf s2).
Proof.
  induction patterns as [| sub rest IH]; intros buf s1 s2 H;
    [apply sim_ret, H |].
  cbn [onePerSubpattern]. apply sim_bind; [apply format_sim, H |].
  intros c t1 t2 Ht. apply IH, Ht.
Qed.

Lemma drawRandoms_sim :
  forall positions s1 s2,
    R s1 s2 ->
    sim R (drawRandoms source1 positions s1) (drawRandoms source2 positions s2).
Proof.
  induction positions as [| p ps IH]; intros s1 s2 H; [apply sim_ret, H |].
  cbn [drawRandoms]. apply sim_bind; [apply uint32_sim, H |].
  intros r t1 t2 Ht. apply sim_bind; [apply IH, Ht |].
  intros rs u1 u2 Hu. apply sim_ret, Hu.
Qed.

Lemma pattern_sim (fuel len : nat) (patterns : Patterns) s1 s2 :
  R s1 s2 ->
  sim R (pattern source1 fuel len patterns s1)
        (pattern source2 fuel len patterns s2).
Proof.
  intros H. destruct patterns as [alphabet | alphabets]; cbn [pattern].
  - apply format_sim, H.
  - destruct (len <? List.length alphabets); [apply format_sim, H |].
    apply sim_bind; [apply onePerSubpattern_sim, H |].
    intros buf t1 t2 Ht. apply sim_bind; [apply format_sim, Ht |].
    intros rest u1 u2 Hu. apply sim_bind; [apply drawRandoms_sim, Hu |].
    intros randoms v1 v2 Hv. apply sim_ret, Hv.
Qed.

Lemma uniqueLoopExisting_sim (count len : nat) (patterns : Patterns)
  (existingMap : list str) :
  forall fuel map s1 s2,
    R s1 s2 ->
    sim R (uniqueLoopExisting source1 fuel count len patterns existingMap map s1)
          (uniqueLoopExisting source2 fuel count len patterns existingMap map s2).
Proof.
  induction fuel as [| fuel IH]; intros map s1 s2 H; cbn [uniqueLoopExisting];
    destruct (List.length map <? count); try (apply sim_ret, H); [exact I |].
  apply sim_bind; [apply pattern_sim, H |].
  intros p t1 t2 Ht. destruct (setHas existingMap p); [apply IH, Ht |].
  apply sim_bind; [apply pattern_sim, Ht |].
  intros q u1 u2 Hu. apply IH, Hu.
Qed.

Lemma uniqueLoop_sim (count len : nat) (patterns : Patterns) :
  forall fuel map s1 s2,
    R s1 s2 ->
    sim R (uniqueLoop source1 fuel count len patterns map s1)
          (uniqueLoop source2 fuel count len patterns map s2).
Proof.
  induction fuel as [| fuel IH]; intros map s1 s2 H; cbn [uniqueLoop];
    destruct (List.length map <? count); try (apply sim_ret, H); [exact I |].
  apply sim_bind; [apply pattern_sim, H |].
  intros q t1 t2 Ht. apply IH, Ht.
Qed.

Lemma uniquePatterns_sim (fuel count len : nat) (patterns : Patterns)
  (existingPatterns : option (list str)) s1 s2 :
  R s1 s2 ->
  sim R (uniquePatterns source1 fuel count len patterns existingPatterns s1)
        (uniquePatterns source2 fuel count len patterns existingPatterns s2).
Proof.
  intros H. unfold uniquePatterns.
  destruct existingPatterns;
    [apply uniqueLoopExisting_sim, H | apply uniqueLoop_sim, H].
Qed.

End Determinism.

(** Every function of the core depends on its source only through the
    bytes the source yields: run with identical parameters on two sources
    that answer the same requests with the same bytes (two instances
    initialised alike, or two implementations of the same byte sequence),
    it ends in the same way with the same result, and leaves the two
    sources in corresponding states. *)
Theorem determinism :
  forall (St1 St2 : Type) (R : St1 -> St2 -> Prop)
         (source1 : RandomSource St1) (source2 : RandomSource St2)
         (s1 : St1) (s2 : St2),
    sameBytes R source1 source2 -> R s1 s2 ->
    (forall len, sim R (bytes source1 len s1) (bytes source2 len s2))
    /\ sim R (uint8 source1 s1) (uint8 source2 s2)
    /\ sim R (uint16 source1 s1) (uint16 source2 s2)
    /\ sim R (uint32 source1 s1) (uint32 source2 s2)
    /\ sim R (uint64 source1 s1) (uint64 source2 s2)
    /\ (forall range,
          sim R (integerLessThan source1 range s1)
                (integerLessThan source2 range s2))
    /\ (forall min max,
          sim R (integer source1 min max s1) (integer source2 min max s2))
    /\ (forall fuel alphabet size,
          sim R (format source1 fuel alphabet size s1)
                (format source2 fuel alphabet size s2))
    /\ (forall fuel len patterns,
          sim R (pattern source1 fuel len patterns s1)
                (pattern source2 fuel len patterns s2))
    /\ (forall fuel count len patterns existingPatterns,
          sim R (uniquePatterns source1 fuel count len patterns
                   existingPatterns s1)
                (uniquePatterns source2 fuel count len patterns
                   existingPatterns s2)).
Proof.
  intros St1 St2 R source1 source2 s1 s2 Hsame H.
  split; [intros len; apply Hsame, H |].
  split; [apply (uint8_sim R), H; exact Hsame |].
  split; [apply (uint16_sim R), H; exact Hsame |].
  split; [apply (uint32_sim R), H; exact Hsame |].
  split; [apply (uint64_sim R), H; exact Hsame |].
  split; [intros; apply (integerLessThan_sim R), H; exact Hsame |].
  split; [intros; apply (integer_sim R), H; exact Hsame |].
  split; [intros; apply (format_sim R), H; exact Hsame |].
  split; [intros; apply (pattern_sim R), H; exact Hsame |].
  intros; apply (uniquePatterns_sim R), H; exact Hsame.
Qed.

Lemma shifted_sameBytes : sameBytes (fun n m => m = n + 7) cyclic shifted.
Proof.
  intros len s1 s2 ->. unfold cyclic, shifted, streamSource. cbn.
  split; [| lia]. f_equal.
  revert s1. induction len as [| len IH]; intros s1; [reflexivity |].
  cbn [seq map]. f_equal.
  - do 2 f_equal. lia.
  - apply (IH (S s1)).
Qed.

Lemma determinism_witness :
  sameBytes (fun n m => m = n + 7) cyclic shifted /\ 7 = 0 + 7
  /\ sim (fun n m => m = n + 7)
       (pattern cyclic 10 8 lowercaseAlphabetNumber 0)
       (pattern shifted 10 8 lowercaseAlphabetNumber 7).
Proof.
  split; [exact shifted_sameBytes |]. split; [reflexivity |].
  destruct (determinism nat nat (fun n m => m = n + 7) cyclic shifted 0 7
              shifted_sameBytes eq_refl)
    as (_ & _ & _ & _ & _ & _ & _ & _ & Hpattern & _).
  apply Hpattern.
Defined.

(* ================================================================= *)
(** * Further properties of the code *)

(** ** The bit mask of [format] *)

Lemma mask_log2 (len : nat) :
  (1 <= Z.of_nat len <= 2 ^ 30)%Z ->
  mask len = (2 ^ (Z.log2 (Z.of_nat len - 1) + 1) - 1)%Z.
Proof.
  intros Hlen. unfold mask.
  set (a := (Z.of_nat len - 1)%Z).
  assert (Ha : (0 <= a < 2 ^ 30)%Z) by (unfold a; lia).
  assert (Hint : toInt32 a = a).
  { unfold toInt32. rewrite Z.mod_small; lia. }
  rewrite Hint.
  set (x := Z.lor a 1).
  assert (Hlog : Z.log2 x = Z.log2 a).
  { unfold x. rewrite Z.log2_lor by lia. change (Z.log2 1) with 0%Z.
    pose proof (Z.log2_nonneg a). lia. }
  assert (Hk : (0 <= Z.log2 a < 30)%Z).
  { split; [apply Z.log2_nonneg |].
    destruct (Z.eq_dec a 0) as [-> | Hne]; [cbn; lia |].
    apply Z.log2_lt_pow2; lia. }
  assert (Hx : (0 < x)%Z).
  { destruct (Z.le_gt_cases x 0) as [Hle | Hgt]; [| exact Hgt].
    exfalso. assert (Hbit : Z.testbit x 0 = true).
    { unfold x. rewrite Z.lor_spec. cbn. apply orb_true_r. }
    assert (Hnn : (0 <= x)%Z) by (unfold x; apply Z.lor_nonneg; lia).
    assert (x = 0%Z) as Hz by lia. rewrite Hz in Hbit. discriminate. }
  assert (Hxb : (x < 2 ^ 30)%Z).
  { apply Z.log2_lt_pow2; [exact Hx | lia]. }
  unfold clz32, toUint32. rewrite (Z.mod_small x) by lia.
  destruct (Z.eqb_spec x 0) as [Hz | _]; [lia |].
  rewrite Hlog.
  replace (31 - (31 - Z.log2 a))%Z with (Z.log2 a) by lia.
  rewrite Z.shiftl_mul_pow2 by lia.
  assert (Hp : (2 * 2 ^ Z.log2 a = 2 ^ (Z.log2 a + 1))%Z)
    by (rewrite Z.pow_add_r by lia; lia).
  rewrite Hp.
  assert (Hpb : (0 < 2 ^ (Z.log2 a + 1) <= 2 ^ 30)%Z).
  { split; [apply Z.pow_pos_nonneg; lia |].
    apply Z.pow_le_mono_r; lia. }
  unfold toInt32. rewrite Z.mod_small by lia. lia.
Qed.

Lemma mask_covers_alphabet_aux (len : nat) :
  (1 <= Z.of_nat len <= 2 ^ 30)%Z ->
  exists k : Z,
    (1 <= k <= 30)%Z
    /\ mask len = (2 ^ k - 1)%Z
    /\ (Z.of_nat len - 1 <= mask len)%Z.
Proof.
  intros Hlen. rewrite (mask_log2 len Hlen).
  set (a := (Z.of_nat len - 1)%Z).
  assert (Ha : (0 <= a < 2 ^ 30)%Z) by (unfold a; lia).
  exists (Z.log2 a + 1)%Z.
  pose proof (Z.log2_nonneg a) as Hnn.
  destruct (Z.eq_dec a 0) as [Hz | Hne].
  - rewrite Hz. change (Z.log2 0 + 1)%Z with 1%Z. cbn. lia.
  - pose proof (Z.log2_spec a ltac:(lia)) as [Hlo Hhi].
    assert (Hk : (Z.log2 a < 30)%Z) by (apply Z.log2_lt_pow2; lia).
    rewrite <- Z.add_1_r in Hhi. lia.
Qed.

(** X1. For an alphabet of 1 to 2^30 characters the mask of [format] is
    [2^k - 1] with [k >= 1]; it covers every index of the alphabet, no
    smaller mask of that form does (unless [k = 1]), and at least half of
    the masked values are indices of the alphabet. *)
Theorem mask_covers_alphabet :
  forall len : nat,
    (1 <= Z.of_nat len <= 2 ^ 30)%Z ->
    exists k : Z,
      (1 <= k <= 30)%Z
      /\ mask len = (2 ^ k - 1)%Z
      /\ (Z.of_nat len - 1 <= mask len)%Z
      /\ (k = 1 \/ 2 ^ (k - 1) <= Z.of_nat len - 1)%Z
      /\ (mask len + 1 <= 2 * Z.of_nat len)%Z.
Proof.
  intros len Hlen. rewrite (mask_log2 len Hlen).
  set (a := (Z.of_nat len - 1)%Z).
  assert (Ha : (0 <= a < 2 ^ 30)%Z) by (unfold a; lia).
  exists (Z.log2 a + 1)%Z.
  pose proof (Z.log2_nonneg a) as Hnn.
  destruct (Z.eq_dec a 0) as [Hz | Hne].
  - rewrite Hz. change (Z.log2 0 + 1)%Z with 1%Z. change (2 ^ 1 - 1)%Z with 1%Z.
    unfold a in Hz. repeat split; lia.
  - pose proof (Z.log2_spec a ltac:(lia)) as [Hlo Hhi].
    assert (Hk : (Z.log2 a < 30)%Z) by (apply Z.log2_lt_pow2; lia).
    rewrite <- Z.add_1_r in Hhi.
    replace (Z.log2 a + 1 - 1)%Z with (Z.log2 a) by lia.
    assert (Hp : (2 ^ (Z.log2 a + 1) = 2 * 2 ^ Z.log2 a)%Z)
      by (rewrite Z.pow_add_r by lia; lia).
    repeat split; lia.
Qed.

Lemma mask_covers_alphabet_witness :
  (1 <= Z.of_nat 36 <= 2 ^ 30)%Z
  /\ exists k : Z,
      (1 <= k <= 30)%Z
      /\ mask 36 = (2 ^ k - 1)%Z
      /\ (Z.of_nat 36 - 1 <= mask 36)%Z
      /\ (k = 1 \/ 2 ^ (k - 1) <= Z.of_nat 36 - 1)%Z
      /\ (mask 36 + 1 <= 2 * Z.of_nat 36)%Z.
Proof.
  split; [cbn; lia |]. apply (mask_covers_alphabet 36). cbn. lia.
Defined.

Lemma land_byte_range (a m : Z) :
  (0 <= a < 256)%Z -> (0 <= Z.land a m < 256)%Z.
Proof.
  intros Ha.
  assert (Hmod : Z.land a m = (Z.land a m mod 2 ^ 8)%Z).
  { rewrite <- Z.land_ones by lia.
    rewrite <- Z.land_assoc, (Z.land_comm m), Z.land_assoc.
    rewrite (Z.land_ones a 8) by lia.
    rewrite (Z.mod_small a) by (cbn; lia). reflexivity. }
  rewrite Hmod. apply Z.mod_pos_bound. cbn. lia.
Qed.

Lemma maskedByte_range (bytes : Uint8Array) (i : nat) (m : Z) :
  (0 <= maskedByte bytes i m < 256)%Z.
Proof.
  unfold maskedByte. apply land_byte_range.
  destruct (get bytes i) as [b |]; [apply byteZ_range | lia].
Qed.

Lemma charAt_firstn (alphabet : str) (idx : Z) (n : nat) :
  (idx < Z.of_nat n)%Z ->
  Forall (fun c => In c (firstn n alphabet)) (charAt alphabet idx).
Proof.
  intros Hidx. unfold charAt. destruct (Z.ltb_spec idx 0); [constructor |].
  destruct (nth_error alphabet (Z.to_nat idx)) as [c |] eqn:E; [| constructor].
  constructor; [| constructor].
  apply nth_error_In with (n := Z.to_nat idx).
  rewrite nth_error_firstn. destruct (Nat.ltb_spec (Z.to_nat idx) n); [exact E | lia].
Qed.

Lemma scan_keeps (P : ascii -> Prop) (bytes : Uint8Array) (mask : Z)
  (alphabet : str) (size : nat) :
  (forall i, Forall P (charAt alphabet (maskedByte bytes i mask))) ->
  forall i id,
    Forall P id ->
    match scan i bytes mask alphabet size id with
    | inl r => Forall P r
    | inr id' => Forall P id'
    end.
Proof.
  intros Hchar. induction i as [| i IH]; intros id Hid; cbn [scan]; [exact Hid |].
  assert (Hid' : Forall P (id ++ charAt alphabet (maskedByte bytes i mask)))
    by (apply Forall_app; split; [exact Hid | apply Hchar]).
  destruct (List.length (id ++ charAt alphabet (maskedByte bytes i mask)) =? size);
    [exact Hid' | apply IH, Hid'].
Qed.

Lemma formatLoop_keeps {St} (source : RandomSource St) (P : ascii -> Prop)
  (step : nat) (mask : Z) (alphabet : str) (size : nat) :
  (forall bytes i, Forall P (charAt alphabet (maskedByte bytes i mask))) ->
  forall fuel id s r s',
    Forall P id ->
    formatLoop source fuel step mask alphabet size id s = Ret (r, s') ->
    Forall P r.
Proof.
  intros Hchar. induction fuel as [| fuel IH]; intros id s r s' Hid H;
    [discriminate |].
  cbn [formatLoop] in H. unfold bind in H.
  destruct (source step s) as [[bytes s1] | |]; try discriminate.
  pose proof (scan_keeps P bytes mask alphabet size (Hchar bytes) step id Hid)
    as Hscan.
  destruct (scan step bytes mask alphabet size id) as [r0 | id'].
  - unfold ret in H. injection H as <- <-. exact Hscan.
  - eapply IH; eassumption.
Qed.

(** X2. A byte selects an index below 256, whatever the mask: [format]
    only ever returns characters among the first 256 of its alphabet. *)
Theorem format_uses_first_256 :
  forall (St : Type) (source : RandomSource St) (fuel : nat) (alphabet : str)
         (size : nat) (s : St) (r : str) (s' : St),
    format source fuel alphabet size s = Ret (r, s') ->
    Forall (fun c => In c (firstn 256 alphabet)) r.
Proof.
  intros St source fuel alphabet size s r s' H. unfold format in H.
  eapply formatLoop_keeps; [| constructor | exact H].
  intros bytes i. apply charAt_firstn.
  pose proof (maskedByte_range bytes i (mask (List.length alphabet))). lia.
Qed.

Lemma format_uses_first_256_witness :
  exists r s',
    format cyclic 1 abc 5 0 = Ret (r, s')
    /\ Forall (fun c => In c (firstn 256 abc)) r.
Proof.
  eexists. eexists. split; [reflexivity |].
  exact (format_uses_first_256 nat cyclic 1 abc 5 0 _ _ eq_refl).
Defined.

(** X3. In an alphabet of 1 to 2^30 characters, the byte whose value is
    the index of a character selects that character: every character
    among the first 256 can be produced. *)
Theorem format_index_reachable :
  forall (alphabet : str) (b : byte) (c : ascii),
    (1 <= Z.of_nat (List.length alphabet) <= 2 ^ 30)%Z ->
    nth_error alphabet (Z.to_nat (byteZ b)) = Some c ->
    charAt alphabet (Z.land (byteZ b) (mask (List.length alphabet))) = [c].
Proof.
  intros alphabet b c Hlen Hnth.
  destruct (mask_covers_alphabet_aux (List.length alphabet) Hlen)
    as (k & Hk & Hmask & Hcover).
  pose proof (byteZ_range b) as Hb.
  assert (Hlt : Z.to_nat (byteZ b) < List.length alphabet)
    by (apply nth_error_Some; congruence).
  assert (Hland : Z.land (byteZ b) (mask (List.length alphabet)) = byteZ b).
  { rewrite Hmask. replace (2 ^ k - 1)%Z with (Z.ones k)
      by (rewrite Z.ones_equiv; lia).
    rewrite Z.land_ones by lia. apply Z.mod_small.
    split; [lia |]. rewrite Hmask in Hcover. lia. }
  rewrite Hland. apply (proj1 (charAt_spec alphabet (byteZ b))).
  split; [lia | exact Hnth].
Qed.

Lemma format_index_reachable_witness :
  (1 <= Z.of_nat (List.length abc) <= 2 ^ 30)%Z
  /\ nth_error abc (Z.to_nat (byteZ x02)) = Some "c"%char
  /\ charAt abc (Z.land (byteZ x02) (mask (List.length abc))) = ["c"%char].
Proof.
  split; [cbn; lia |]. split; [reflexivity |].
  apply format_index_reachable; [cbn; lia | reflexivity].
Defined.

(** ** Patterns and sets of patterns *)

Lemma onePerSubpattern_chars {St} (source : RandomSource St) (fuel : nat)
  (patterns : list str) (s : St) (r : str) (s' : St) :
  onePerSubpattern source fuel patterns [] s = Ret (r, s') ->
  List.length r = List.length patterns
  /\ Forall (fun c => In c (join patterns)) r.
Proof.
  intros H. apply onePerSubpattern_sound in H. destruct H as (cs & -> & Hcs).
  cbn [app]. split; [exact (Forall2_length Hcs) |].
  unfold join. clear - Hcs. induction Hcs as [| c sub cs subs Hc _ IH].
  - constructor.
  - cbn [List.concat]. constructor.
    + apply in_or_app. now left.
    + eapply Forall_impl; [| exact IH]. cbn. intros a Ha.
      apply in_or_app. now right.
Qed.

Lemma pattern_sound_all {St} (source : RandomSource St) (fuel len : nat)
  (patterns : Patterns) (s : St) (r : str) (s' : St) :
  pattern source fuel len patterns s = Ret (r, s') ->
  wellFormed len patterns r.
Proof.
  intros H. unfold wellFormed.
  destruct patterns as [alphabet | alphabets]; cbn [pattern alphabetOf] in *.
  - eapply format_sound, H.
  - destruct (Nat.ltb_spec len (List.length alphabets)) as [Hlt | Hge].
    + eapply format_sound, H.
    + unfold bind in H.
      destruct (onePerSubpattern source fuel alphabets [] s)
        as [[buf s1] | |] eqn:E1; try discriminate.
      destruct (format source fuel (join alphabets)
                  (len - List.length alphabets) s1)
        as [[rest s2] | |] eqn:E2; try discriminate.
      destruct (drawRandoms source (seq 0 (List.length (buf ++ rest))) s2)
        as [[randoms s3] | |] eqn:E3; try discriminate.
      unfold ret in H. injection H as <- <-.
      apply onePerSubpattern_chars in E1. destruct E1 as [Hbl Hbuf].
      apply format_sound in E2. destruct E2 as [Hrl Hrest].
      assert (Hperm : Permutation
                        (pick (buf ++ rest)
                           (sortPositions randoms
                              (seq 0 (List.length (buf ++ rest)))))
                        (buf ++ rest))
        by (apply pick_perm, sortPositions_perm).
      split.
      * rewrite (Permutation_length Hperm), length_app, Hbl, Hrl.
        unfold str in *. lia.
      * eapply Permutation_Forall; [symmetry; exact Hperm |].
        apply Forall_app. split; assumption.
Qed.

(** X4. Whatever the kind of specification (one alphabet, a list that fits
    in the length, a list that does not), a string that [pattern] returns
    has exactly the requested length and only characters of the
    alphabets. *)
Theorem pattern_well_formed :
  forall (St : Type) (source : RandomSource St) (fuel len : nat)
         (patterns : Patterns) (s : St) (r : str) (s' : St),
    pattern source fuel len patterns s = Ret (r, s') ->
    wellFormed len patterns r.
Proof.
  intros St source fuel len patterns s r s' H.
  eapply pattern_sound_all, H.
Qed.

Lemma pattern_well_formed_witness :
  exists r t,
    pattern createSource 10 8 lowercaseAlphabetNumber (batchedInit tt)
    = Ret (r, t)
    /\ wellFormed 8 lowercaseAlphabetNumber r.
Proof.
  destruct (pattern createSource 10 8 lowercaseAlphabetNumber (batchedInit tt))
    as [[r t] | |] eqn:E; try (vm_compute in E; discriminate).
  exists r, t. split; [reflexivity |].
  exact (pattern_well_formed _ createSource 10 8 lowercaseAlphabetNumber
           (batchedInit tt) r t E).
Defined.

Lemma setHas_In (m : list str) (p : str) : setHas m p = true <-> In p m.
Proof.
  unfold setHas. destruct (in_dec str_eq_dec p m); split; auto; discriminate.
Qed.

(** Adding to a set keeps it free of duplicates and makes it grow by at
    most one member. *)
Lemma setAdd_spec (P : str -> Prop) (m : list str) (p : str) :
  NoDup m -> Forall P m -> P p ->
  NoDup (setAdd m p) /\ Forall P (setAdd m p)
  /\ List.length m <= List.length (setAdd m p) <= S (List.length m)
  /\ In p (setAdd m p).
Proof.
  intros Hnd Hall Hp. unfold setAdd.
  destruct (setHas m p) eqn:E.
  - apply setHas_In in E. repeat split; auto.
  - assert (Hnot : ~ In p m) by (rewrite <- setHas_In; congruence).
    repeat split.
    + apply NoDup_app; [exact Hnd | repeat constructor; auto | ].
      intros x Hx [<- | []]. contradiction.
    + apply Forall_app. split; [exact Hall | repeat constructor; exact Hp].
    + rewrite length_app. cbn. lia.
    + rewrite length_app. cbn. lia.
    + apply in_or_app. right. now left.
Qed.

Section UniqueLoops.
Context {St : Type} (source : RandomSource St).
Variables (count len : nat) (patterns : Patterns).

Lemma setOk_add (map : list str) (q : str) :
  setOk count len patterns map -> List.length map < count -> wellFormed len patterns q ->
  setOk count len patterns (setAdd map q).
Proof.
  intros (Hnd & Hall & _) Hlt Hq.
  destruct (setAdd_spec (wellFormed len patterns) map q Hnd Hall Hq)
    as (Hnd' & Hall' & Hlen' & _).
  repeat split; auto. lia.
Qed.

Lemma uniqueLoop_inv :
  forall fuel map s l s',
    setOk count len patterns map ->
    uniqueLoop source fuel count len patterns map s = Ret (l, s') ->
    setOk count len patterns l /\ List.length l = count.
Proof.
  induction fuel as [| fuel IH]; intros map s l s' Hok H;
    cbn [uniqueLoop] in H;
    destruct (Nat.ltb_spec (List.length map) count) as [Hlt | Hge];
    try discriminate.
  - unfold ret in H. injection H as <- <-. split; [exact Hok |].
    destruct Hok as (_ & _ & Hle). lia.
  - unfold bind in H.
    destruct (pattern source (S fuel) len patterns s) as [[q s1] | |] eqn:Eq;
      try discriminate.
    apply pattern_sound_all in Eq.
    eapply IH; [| exact H]. apply setOk_add; assumption.
  - unfold ret in H. injection H as <- <-. split; [exact Hok |].
    destruct Hok as (_ & _ & Hle). lia.
Qed.

Lemma uniqueLoopExisting_inv (existingMap : list str) :
  forall fuel map s l s',
    setOk count len patterns map ->
    uniqueLoopExisting source fuel count len patterns existingMap map s
    = Ret (l, s') ->
    setOk count len patterns l /\ List.length l = count.
Proof.
  induction fuel as [| fuel IH]; intros map s l s' Hok H;
    cbn [uniqueLoopExisting] in H;
    destruct (Nat.ltb_spec (List.length map) count) as [Hlt | Hge];
    try discriminate.
  - unfold ret in H. injection H as <- <-. split; [exact Hok |].
    destruct Hok as (_ & _ & Hle). lia.
  - unfold bind in H.
    destruct (pattern source (S fuel) len patterns s) as [[p s1] | |];
      try discriminate.
    destruct (setHas existingMap p); [eapply IH; eassumption |].
    destruct (pattern source (S fuel) len patterns s1) as [[q s2] | |] eqn:Eq;
      try discriminate.
    apply pattern_sound_all in Eq.
    eapply IH; [| exact H]. apply setOk_add; assumption.
  - unfold ret in H. injection H as <- <-. split; [exact Hok |].
    destruct Hok as (_ & _ & Hle). lia.
Qed.

End UniqueLoops.

(** X5. With or without an exclusion list, a list that [uniquePatterns]
    returns has exactly [count] members, no member twice, and every member
    has the requested length and only characters of the alphabets; for
    [count = 0] it is empty and nothing is drawn. *)
Theorem uniquePatterns_distinct :
  forall (St : Type) (source : RandomSource St) (fuel count len : nat)
         (patterns : Patterns) (existingPatterns : option (list str))
         (s : St) (l : list str) (s' : St),
    uniquePatterns source fuel count len patterns existingPatterns s
    = Ret (l, s') ->
    List.length l = count /\ NoDup l
    /\ Forall (wellFormed len patterns) l
    /\ (count = 0 -> l = [] /\ s' = s).
Proof.
  intros St source fuel count len patterns existingPatterns s l s' H.
  assert (Hempty : setOk count len patterns [])
    by (repeat split; [constructor | constructor | cbn; lia]).
  assert (Hinv : setOk count len patterns l /\ List.length l = count).
  { unfold uniquePatterns in H. destruct existingPatterns as [existing |].
    - eapply uniqueLoopExisting_inv; eassumption.
    - eapply uniqueLoop_inv; eassumption. }
  destruct Hinv as ((Hnd & Hall & _) & Hlen).
  split; [exact Hlen |]. split; [exact Hnd |]. split; [exact Hall |].
  intros ->. split; [destruct l; [reflexivity | discriminate] |].
  unfold uniquePatterns in H.
  destruct existingPatterns; destruct fuel; cbn in H;
    unfold ret in H; congruence.
Qed.

Lemma uniquePatterns_distinct_witness :
  exists l t,
    uniquePatterns createSource 10 3 4 lowercaseAlphabetNumber None
      (batchedInit tt) = Ret (l, t)
    /\ List.length l = 3 /\ NoDup l
    /\ Forall (wellFormed 4 lowercaseAlphabetNumber) l.
Proof.
  destruct (uniquePatterns createSource 10 3 4 lowercaseAlphabetNumber None
              (batchedInit tt)) as [[l t] | |] eqn:E;
    try (vm_compute in E; discriminate).
  exists l, t. split; [reflexivity |].
  destruct (uniquePatterns_distinct _ createSource 10 3 4
              lowercaseAlphabetNumber None (batchedInit tt) l t E)
    as (H1 & H2 & H3 & _).
  auto.
Defined.

Section Starvation.
Context {St : Type} (source : RandomSource St).
Variables (count len : nat) (patterns : Patterns) (L : list str).
Hypothesis Hall : forall fuel s r s',
  pattern source fuel len patterns s = Ret (r, s') -> In r L.
Hypothesis Hfew : List.length L < count.

Lemma starving_size (map : list str) :
  NoDup map -> incl map L -> List.length map < count.
Proof.
  intros Hnd Hincl. pose proof (NoDup_incl_length Hnd Hincl). lia.
Qed.

Lemma setAdd_incl (map : list str) (q : str) :
  NoDup map -> incl map L -> In q L ->
  NoDup (setAdd map q) /\ incl (setAdd map q) L.
Proof.
  intros Hnd Hincl Hq.
  destruct (setAdd_spec (fun p => In p L) map q Hnd
              (proj2 (Forall_forall _ _) Hincl) Hq) as (Hnd' & Hall' & _).
  split; [exact Hnd' |]. intros x. apply (proj1 (Forall_forall _ _) Hall').
Qed.

Lemma uniqueLoop_starves :
  forall fuel map s l s',
    NoDup map -> incl map L ->
    uniqueLoop source fuel count len patterns map s <> Ret (l, s').
Proof.
  induction fuel as [| fuel IH]; intros map s l s' Hnd Hincl;
    cbn [uniqueLoop];
    pose proof (starving_size map Hnd Hincl) as Hlt;
    destruct (Nat.ltb_spec (List.length map) count); try lia;
    [discriminate |].
  unfold bind.
  destruct (pattern source (S fuel) len patterns s) as [[q s1] | |] eqn:Eq;
    try discriminate.
  apply Hall in Eq.
  destruct (setAdd_incl map q Hnd Hincl Eq) as [Hnd' Hincl'].
  apply IH; assumption.
Qed.

Lemma uniqueLoopExisting_starves (existingMap : list str) :
  forall fuel map s l s',
    NoDup map -> incl map L ->
    uniqueLoopExisting source fuel count len patterns existingMap map s
    <> Ret (l, s').
Proof.
  induction fuel as [| fuel IH]; intros map s l s' Hnd Hincl;
    cbn [uniqueLoopExisting];
    pose proof (starving_size map Hnd Hincl) as Hlt;
    destruct (Nat.ltb_spec (List.length map) count); try lia;
    [discriminate |].
  unfold bind.
  destruct (pattern source (S fuel) len patterns s) as [[p s1] | |];
    try discriminate.
  destruct (setHas existingMap p); [apply IH; assumption |].
  destruct (pattern source (S fuel) len patterns s1) as [[q s2] | |] eqn:Eq;
    try discriminate.
  apply Hall in Eq.
  destruct (setAdd_incl map q Hnd Hincl Eq) as [Hnd' Hincl'].
  apply IH; assumption.
Qed.

End Starvation.

(** X6. [uniquePatterns] has no way out when too few strings exist: if
    every string that [pattern] can return for the given length and
    alphabets lies in a list of fewer than [count] strings, no call returns,
    whatever the source, the loop budget and the exclusion list. *)
Theorem uniquePatterns_starves :
  forall (St : Type) (source : RandomSource St) (count len : nat)
         (patterns : Patterns) (L : list str),
    (forall fuel s r s',
       pattern source fuel len patterns s = Ret (r, s') -> In r L) ->
    List.length L < count ->
    forall fuel existingPatterns s l s',
      uniquePatterns source fuel count len patterns existingPatterns s
      <> Ret (l, s').
Proof.
  intros St source count len patterns L Hall Hfew fuel existingPatterns s l s'.
  unfold uniquePatterns. destruct existingPatterns as [existing |].
  - apply (uniqueLoopExisting_starves source count len patterns L Hall Hfew);
      [constructor | intros x []].
  - apply (uniqueLoop_starves source count len patterns L Hall Hfew);
      [constructor | intros x []].
Qed.

Lemma one_letter_strings (a : ascii) (r : str) :
  Forall (fun c => In c [a]) r -> r = repeat a (List.length r).
Proof.
  induction 1 as [| c r Hc _ IH]; [reflexivity |].
  cbn. destruct Hc as [<- | []]. now rewrite <- IH.
Qed.

Lemma uniquePatterns_starves_witness :
  ~ exists fuel existingPatterns l t,
      uniquePatterns createSource fuel 2 3 (Single onlyA) existingPatterns
        (batchedInit tt) = Ret (l, t).
Proof.
  intros (fuel & existingPatterns & l & t & Hret). revert Hret.
  apply (uniquePatterns_starves _ createSource 2 3 (Single onlyA)
           [list_ascii_of_string "aaa"]); [| cbn; lia].
  intros fuel' s r s' H. left.
  apply pattern_sound_all in H. destruct H as [Hlen Hin].
  cbn [alphabetOf] in Hin.
  rewrite (one_letter_strings "a"%char r Hin), Hlen. reflexivity.
Defined.

(** ** Bounded integers, further *)

(** X7. On a reliable source [integer(min, max)] returns [NaN] exactly
    when the interval [min, max] holds no integer (in particular when
    [min > max]); otherwise it returns an integer of the interval. *)
Theorem integer_nan_iff_no_integer :
  forall (St : Type) (Inv : St -> Prop) (source : RandomSource St) (s : St)
         (min max : Q),
    reliable Inv source -> Inv s ->
    ((exists s', integer source min max s = Ret (NaN, s'))
     <-> ~ exists z : Z, (min <= inject_Z z <= max)%Q)
    /\ ((exists z s', integer source min max s = Ret (Int z, s')
                      /\ (min <= inject_Z z <= max)%Q)
        <-> exists z : Z, (min <= inject_Z z <= max)%Q).
Proof.
  intros St Inv source s min max Hsrc Hs.
  destruct (Qlt_le_dec max min) as [Hgt | Hle].
  - assert (Hnone : ~ exists z : Z, (min <= inject_Z z <= max)%Q).
    { intros (z & H1 & H2). apply (Qlt_not_le _ _ Hgt).
      eapply Qle_trans; eassumption. }
    assert (Hnan : integer source min max s = Ret (NaN, s)).
    { unfold integer. destruct (Qle_bool min max) eqn:E; [| reflexivity].
      apply Qle_bool_iff in E. exfalso. exact (Qlt_not_le _ _ Hgt E). }
    split; split; intros H; try contradiction; eauto.
    destruct H as (z & s' & Hz & _). congruence.
  - destruct (Z_le_gt_dec (Qceiling min) (Qfloor max)) as [Hlh | Hhl].
    + destruct (integer_spec Inv source s min max Hsrc Hs Hle Hlh)
        as (r & s' & _ & Hi & Hb & _).
      assert (Hin : (min <= inject_Z (Qceiling min + r) <= max)%Q).
      { split.
        - eapply Qle_trans; [apply Qle_ceiling |]. rewrite <- Zle_Qle. lia.
        - eapply Qle_trans; [| apply Qfloor_le]. rewrite <- Zle_Qle. lia. }
      split; split; intros H; eauto.
      * destruct H as (s'' & H). congruence.
      * exfalso. apply H. eauto.
    + assert (Hrange : (Qfloor max - Qceiling min + 1 = 0)%Z)
        by (pose proof (ceiling_floor_gap min max Hle); lia).
      assert (Hnone : ~ exists z : Z, (min <= inject_Z z <= max)%Q).
      { intros (z & H1 & H2). apply ceiling_least in H1.
        apply floor_greatest in H2. lia. }
      destruct (rejectionSampling_zero Inv source s Hsrc Hs)
        as (vs & s' & _ & Hzero).
      assert (Hnan : integer source min max s = Ret (NaN, s')).
      { unfold integer. rewrite (proj2 (Qle_bool_iff min max) Hle).
        rewrite Hrange, integerLessThan_Z. unfold bind. rewrite Hzero.
        reflexivity. }
      split; split; intros H; try contradiction; eauto.
      destruct H as (z & s'' & Hz & _). congruence.
Qed.

Lemma integer_nan_iff_no_integer_witness :
  reliable (batchedOk (fun _ => True) 1024) createSource
  /\ batchedOk (fun _ => True) 1024 (batchedInit tt)
  /\ exists t, integer createSource (2 # 10) (8 # 10) (batchedInit tt)
               = Ret (NaN, t).
Proof.
  split; [exact createSource_reliable |]. split; [exact createSource_init |].
  apply (proj1 (integer_nan_iff_no_integer _ _ createSource (batchedInit tt)
                  (2 # 10) (8 # 10) createSource_reliable createSource_init)).
  intros (z & H1 & H2). apply ceiling_least in H1. apply floor_greatest in H2.
  vm_compute in H1, H2. destruct z; try discriminate; cbn in *;
    try (apply H1; reflexivity); try (apply H2; reflexivity).
Defined.

(** X8. The samples that [rejectionSampling] accepts are shared out evenly:
    for a range of at least one, the 32-bit samples that are accepted and
    reduce to a given result [r] are exactly the
    [Math.floor(maxUInt32 / range)] numbers [j * range + r]. *)
Theorem acceptance_unbiased :
  forall (range r v : Z),
    (1 <= range)%Z -> (0 <= r < range)%Z ->
    ((0 <= v)%Z /\ lessThan v (limit range) = true
                /\ remainder v range = Int r)
    <-> exists j, (0 <= j < maxUInt32 / range)%Z /\ v = (j * range + r)%Z.
Proof.
  intros range r v Hrange Hr. rewrite limit_pos by assumption. cbn [lessThan].
  split.
  - intros (Hv & Hlt & Hrem). apply Z.ltb_lt in Hlt.
    rewrite remainder_pos in Hrem by assumption.
    injection Hrem as Hrem. exists (v / range)%Z.
    pose proof (Z.div_mod v range ltac:(lia)) as Hdm.
    split; [| lia]. split.
    + apply Z.div_pos; lia.
    + apply Z.div_lt_upper_bound; lia.
  - intros (j & Hj & ->).
    assert (Hv : (0 <= j * range + r)%Z) by nia.
    split; [exact Hv |]. split.
    + apply Z.ltb_lt. nia.
    + rewrite remainder_pos by assumption. f_equal.
      rewrite Z.add_comm, Z_mod_plus_full. apply Z.mod_small. lia.
Qed.

Lemma acceptance_unbiased_witness :
  (1 <= 3)%Z /\ (0 <= 2 < 3)%Z
  /\ ((0 <= 5)%Z /\ lessThan 5 (limit 3) = true /\ remainder 5 3 = Int 2).
Proof.
  split; [lia |]. split; [lia |].
  apply (proj2 (acceptance_unbiased 3 2 5 ltac:(lia) ltac:(lia))).
  exists 1%Z. split; [| reflexivity]. unfold maxUInt32.
  split; [lia | reflexivity].
Defined.

Lemma samples_one {St} (source : RandomSource St) (s s' : St) (v : Z) :
  samples source 1 s = Ret ([v], s') -> uint32 source s = Ret (v, s').
Proof.
  cbn [samples]. unfold bind, ret.
  destruct (uint32 source s) as [[v0 s0] | |]; congruence.
Qed.

(** X9. When the range divides 2^32 (a power of two up to 2^32; so also
    the range one), nothing is rejected: [integerLessThan] makes one
    32-bit draw and returns that draw modulo the range. *)
Theorem dividing_range_single_draw :
  forall (St : Type) (Inv : St -> Prop) (source : RandomSource St) (s : St)
         (range : Z),
    reliable Inv source -> Inv s ->
    (1 <= range)%Z -> (maxUInt32 mod range = 0)%Z ->
    exists v s',
      uint32 source s = Ret (v, s')
      /\ integerLessThan source (inject_Z range) s
         = Ret (Int (v mod range), s').
Proof.
  intros St Inv source s range Hsrc Hs Hrange Hdiv.
  destruct (rejectionSampling_spec Inv source s range Hsrc Hs Hrange)
    as (k & vs & v & s' & Hk & Hsam & Hrej & Hv & _ & Hres & _).
  assert (Hlim : (maxUInt32 / range * range = maxUInt32)%Z).
  { pose proof (Z.div_mod maxUInt32 range ltac:(lia)). lia. }
  rewrite Hlim in Hrej.
  destruct vs as [| x vs].
  - exists v, s'. rewrite integerLessThan_Z. split; [| exact Hres].
    assert (Hk1 : k = 1).
    { destruct k as [| [| k]]; [lia | reflexivity |].
      exfalso. cbn [samples app] in Hsam. unfold bind, ret in Hsam.
      destruct (uint32 source s) as [[v0 s0] | |]; try discriminate.
      destruct (uint32 source s0) as [[v1 s1] | |]; try discriminate.
      destruct (samples source k s1) as [[l s2] | |]; discriminate. }
    subst k. apply samples_one. exact Hsam.
  - exfalso. inversion Hrej as [| ? ? [Hx1 Hx2] _]. lia.
Qed.

Lemma dividing_range_single_draw_witness :
  exists v s',
    uint32 createSource (batchedInit tt) = Ret (v, s')
    /\ integerLessThan createSource (inject_Z 65536) (batchedInit tt)
       = Ret (Int (v mod 65536), s').
Proof.
  apply (dividing_range_single_draw _ _ createSource (batchedInit tt) 65536
           createSource_reliable createSource_init);
    [lia | reflexivity].
Defined.

(** X10. A range above 2^32 defeats the rejection loop: no sample is below
    the limit, which is zero, so [integerLessThan] makes all 101 draws and
    returns the last one as it is; the result stays below 2^32 and the
    numbers from 2^32 up to the range are never returned. *)
Theorem range_over_32_bits :
  forall (St : Type) (Inv : St -> Prop) (source : RandomSource St) (s : St)
         (range : Z),
    reliable Inv source -> Inv s -> (maxUInt32 < range)%Z ->
    exists vs v s',
      samples source (S maxIntegerIter) s = Ret (vs ++ [v], s')
      /\ integerLessThan source (inject_Z range) s = Ret (Int v, s')
      /\ (0 <= v < maxUInt32)%Z.
Proof.
  intros St Inv source s range Hsrc Hs Hrange.
  assert (Hpos : (0 < maxUInt32)%Z) by (unfold maxUInt32; lia).
  destruct (rejectionSampling_spec Inv source s range Hsrc Hs ltac:(lia))
    as (k & vs & v & s' & Hk & Hsam & _ & Hv & Hacc & Hres & _).
  rewrite (Z.div_small maxUInt32 range) in Hacc by lia.
  assert (k = S maxIntegerIter) as ->.
  { destruct (Nat.le_gt_cases k maxIntegerIter) as [Hle | Hgt]; [| lia].
    specialize (Hacc Hle). lia. }
  exists vs, v, s'. split; [exact Hsam |]. split; [| exact Hv].
  rewrite integerLessThan_Z, Hres. rewrite Z.mod_small by lia. reflexivity.
Qed.

Lemma range_over_32_bits_witness :
  exists vs v s',
    samples createSource (S maxIntegerIter) (batchedInit tt)
    = Ret (vs ++ [v], s')
    /\ integerLessThan createSource (inject_Z 4294967297) (batchedInit tt)
       = Ret (Int v, s')
    /\ (0 <= v < maxUInt32)%Z.
Proof.
  apply (range_over_32_bits _ _ createSource (batchedInit tt) 4294967297
           createSource_reliable createSource_init).
  unfold maxUInt32. lia.
Defined.

(** ** Fixed-width integers, further *)

Lemma getUint_short (w : nat) (buf : list byte) :
  List.length buf < w -> getUint w buf 0 = RangeError.
Proof.
  intros H. unfold getUint. cbn [Nat.add].
  rewrite (proj2 (Nat.leb_gt w (List.length buf))) by lia. reflexivity.
Qed.

Lemma getUint_long (w : nat) (buf : list byte) :
  w <= List.length buf ->
  exists v, getUint w buf 0 = Ret v
            /\ v = bigEndian (firstn w buf)
            /\ (0 <= v < 256 ^ Z.of_nat w)%Z.
Proof.
  intros H. unfold getUint. cbn [Nat.add skipn].
  rewrite (proj2 (Nat.leb_le w (List.length buf))) by lia.
  eexists. split; [reflexivity |]. split; [reflexivity |].
  pose proof (bigEndian_range (firstn w buf)) as Hr.
  rewrite length_firstn, Nat.min_l in Hr by lia. exact Hr.
Qed.

(** X11. The fixed-width extractors do not check the length of the array
    the source answers with.  They read the buffer behind it: when that
    buffer holds fewer bytes than the width, the extractor raises a
    [RangeError]; when it holds at least as many, the extractor returns the
    big-endian value of the first bytes of the buffer, within the range of
    the width (shown for [uint32] and [uint64]; [uint8] and [uint16] are
    alike). *)
Theorem uint_answer_length :
  forall (St : Type) (source : RandomSource St) (s s4 s8 : St)
         (u4 u8 : Uint8Array),
    source 4 s = Ret (u4, s4) ->
    source 8 s = Ret (u8, s8) ->
    (List.length (buffer u4) < 4 -> uint32 source s = RangeError)
    /\ (4 <= List.length (buffer u4) ->
        exists v, uint32 source s = Ret (v, s4)
                  /\ v = bigEndian (firstn 4 (buffer u4))
                  /\ (0 <= v < maxUInt32)%Z)
    /\ (List.length (buffer u8) < 8 -> uint64 source s = RangeError)
    /\ (8 <= List.length (buffer u8) ->
        exists v, uint64 source s = Ret (v, s8)
                  /\ v = bigEndian (firstn 8 (buffer u8))
                  /\ (0 <= v <= maxUint64)%Z).
Proof.
  intros St source s s4 s8 u4 u8 H4 H8.
  split; [| split; [| split]].
  - intros Hlen. unfold uint32, bind. rewrite H4. unfold getUint32.
    rewrite getUint_short by assumption. reflexivity.
  - intros Hlen. destruct (getUint_long 4 (buffer u4) Hlen) as (v & Hv & E & Hr).
    exists v. unfold uint32, bind. rewrite H4. unfold getUint32. rewrite Hv.
    split; [reflexivity |]. split; [exact E |]. unfold maxUInt32.
    change (256 ^ Z.of_nat 4)%Z with 4294967296%Z in Hr. exact Hr.
  - intros Hlen. unfold uint64, bind. rewrite H8. unfold getBigUint64.
    rewrite getUint_short by assumption. reflexivity.
  - intros Hlen. destruct (getUint_long 8 (buffer u8) Hlen) as (v & Hv & E & Hr).
    exists v. unfold uint64, bind. rewrite H8. unfold getBigUint64. rewrite Hv.
    split; [reflexivity |]. split; [exact E |]. unfold maxUint64.
    change (256 ^ Z.of_nat 8)%Z with 18446744073709551616%Z in Hr. lia.
Qed.

Lemma uint_answer_length_witness :
  uint32 silent tt = RangeError /\ uint64 silent tt = RangeError.
Proof.
  destruct (uint_answer_length unit silent tt tt tt
              (newUint8Array 0) (newUint8Array 0) eq_refl eq_refl)
    as (H4 & _ & H8 & _).
  split; [apply H4 | apply H8]; cbn; lia.
Defined.

(** ** Answers that are too short *)

Lemma maskedByte_missing (bytes : Uint8Array) (i : nat) (mask : Z) :
  elements bytes = [] -> maskedByte bytes i mask = 0%Z.
Proof.
  intros H. unfold maskedByte, get. rewrite H.
  destruct i; cbn [nth_error]; apply Z.land_0_l.
Qed.

Lemma scan_missing (bytes : Uint8Array) (mask : Z) (c : ascii) (rest : str)
  (size : nat) :
  elements bytes = [] ->
  forall i n,
    n < size ->
    scan i bytes mask (c :: rest) size (repeat c n)
    = if size - n <=? i then inl (repeat c size) else inr (repeat c (n + i)).
Proof.
  intros Hempty. induction i as [| i IH]; intros n Hn.
  - cbn [scan]. destruct (Nat.leb_spec (size - n) 0); [lia |].
    rewrite Nat.add_0_r. reflexivity.
  - cbn [scan]. rewrite maskedByte_missing by assumption.
    change (charAt (c :: rest) 0) with [c].
    replace (repeat c n ++ [c]) with (repeat c (S n))
      by (rewrite <- repeat_cons; reflexivity).
    rewrite repeat_length.
    destruct (Nat.eqb_spec (S n) size) as [E | E].
    + subst size. destruct (Nat.leb_spec (S n - n) (S i)); [reflexivity | lia].
    + rewrite IH by lia.
      destruct (Nat.leb_spec (size - S n) i), (Nat.leb_spec (size - n) (S i));
        try lia; try reflexivity.
      f_equal. f_equal. lia.
Qed.

Section ShortAnswers.
Context {St : Type} (Inv : St -> Prop) (source : RandomSource St).
Variables (c : ascii) (rest : str) (size step : nat) (mask : Z).
Hypothesis Hempty :
  forall s, Inv s ->
    exists u s', source step s = Ret (u, s') /\ Inv s' /\ elements u = [].
Hypothesis Hstep : 1 <= step.

Lemma formatLoop_missing :
  forall fuel n s,
    Inv s -> n < size -> size - n <= fuel ->
    exists s', formatLoop source fuel step mask (c :: rest) size (repeat c n) s
               = Ret (repeat c size, s').
Proof.
  induction fuel as [| fuel IH]; intros n s Hs Hn Hfuel; [lia |].
  destruct (Hempty s Hs) as (u & s1 & Hu & Hs1 & He).
  cbn [formatLoop]. unfold bind. rewrite Hu.
  rewrite (scan_missing u mask c rest size He step n Hn).
  destruct (Nat.leb_spec (size - n) step).
  - exists s1. reflexivity.
  - apply IH; [exact Hs1 | lia | lia].
Qed.

End ShortAnswers.

(** X13. [format] does not check the length of the batches it receives: a
    byte that is missing from an answer counts as the byte zero.  So on a
    source that answers with empty arrays, [format] returns the first
    character of the alphabet, [size] times. *)
Theorem format_short_answers :
  forall (St : Type) (Inv : St -> Prop) (source : RandomSource St)
         (c : ascii) (rest : str) (size fuel : nat) (s : St),
    (forall len s, Inv s ->
       exists u s', source len s = Ret (u, s') /\ Inv s' /\ elements u = []) ->
    Inv s ->
    1 <= size <= fuel ->
    1 <= step (mask (List.length (c :: rest))) size (List.length (c :: rest)) ->
    exists s', format source fuel (c :: rest) size s = Ret (repeat c size, s').
Proof.
  intros St Inv source c rest size fuel s Hempty Hs Hsize Hstep.
  unfold format.
  apply (formatLoop_missing Inv source c rest size _ _ (Hempty _) Hstep
           fuel 0 s Hs); lia.
Qed.

Lemma format_short_answers_witness :
  exists s', format silent 5 abc 5 tt
             = Ret (list_ascii_of_string "aaaaa", s').
Proof.
  apply (format_short_answers unit (fun _ => True) silent
           "a"%char (list_ascii_of_string "bc") 5 5 tt).
  - intros len [] _. exists (newUint8Array 0), tt. repeat split.
  - exact I.
  - lia.
  - vm_compute. lia.
Defined.

(** ** The batching adapter, further *)

Section BatchCount.
Context {St : Type} (Inv : St -> Prop) (source : RandomSource St).
Variable batchSize : nat.
Hypothesis HbatchSize : 1 <= batchSize.
Hypothesis Hbase : forall s, Inv s ->
  exists u s', source batchSize s = Ret (u, s')
               /\ wfView u /\ byteLength u = batchSize /\ Inv s'.

Lemma drawn_length :
  forall k s all s',
    Inv s -> drawn source batchSize k s = Ret (all, s') ->
    List.length all = k * batchSize.
Proof.
  induction k as [| k IH]; intros s all s' Hs Hd.
  - cbn in Hd. unfold ret in Hd. injection Hd as <- <-. reflexivity.
  - cbn [drawn] in Hd. unfold bind in Hd.
    destruct (Hbase s Hs) as (u & s1 & Hu & Hwf & Hlen & Hs1).
    rewrite Hu in Hd.
    destruct (drawn source batchSize k s1) as [[r sr] | |] eqn:E;
      try discriminate.
    unfold ret in Hd. injection Hd as <- <-.
    rewrite length_app, (elements_length u Hwf), Hlen, (IH s1 r sr Hs1 E).
    reflexivity.
Qed.

Lemma pending_length (st : Batched St) :
  batchedInv Inv batchSize st ->
  (exists b, batchBuffer st = Some b) ->
  1 <= List.length (pending st) <= batchSize.
Proof.
  intros [_ Hbuf] (b & Eb). unfold pending. rewrite Eb in *.
  destruct Hbuf as (Hwf & Hlen & Ho).
  rewrite length_skipn, (elements_length b Hwf). lia.
Qed.

Lemma serve_count (lens : list nat) :
  forall st,
    batchedOk Inv batchSize st ->
    exists k all outs st',
      drawn source batchSize k (baseState st) = Ret (all, baseState st')
      /\ serve (batchedRandomSource source batchSize) lens st = Ret (outs, st')
      /\ batchedOk Inv batchSize st'
      /\ List.length (pending st) + k * batchSize
         = list_sum lens + List.length (pending st')
      /\ (lens = [] -> st' = st)
      /\ (lens <> [] -> 1 <= List.length (pending st') <= batchSize).
Proof.
  induction lens as [| len lens IH]; intros st Hok.
  - exists 0, [], [], st. cbn.
    split; [reflexivity |]. split; [reflexivity |]. split; [exact Hok |].
    split; [lia |]. split; [reflexivity | congruence].
  - destruct Hok as [Hinv Hnone].
    destruct (batchedRandomSource_spec Inv source batchSize HbatchSize Hbase
                len st Hinv Hnone)
      as (k1 & all1 & st1 & Hd1 & Hinv1 & Hsome1 & Hres & Hleft1 & Hlong1).
    assert (Hok1 : batchedOk Inv batchSize st1).
    { split; [exact Hinv1 |]. destruct Hsome1 as (b1 & Eb1).
      rewrite Eb1. discriminate. }
    pose proof (pending_length st1 Hinv1 Hsome1) as Hp1.
    pose proof (drawn_length k1 _ _ _ (proj1 Hinv) Hd1) as Hl1.
    assert (Hc1 : List.length (pending st) + k1 * batchSize
                  = len + List.length (pending st1)).
    { rewrite Hleft1, length_skipn. rewrite length_app in *. lia. }
    destruct (IH st1 Hok1)
      as (k2 & all2 & outs & st2 & Hd2 & Hserve & Hok2 & Hc2 & Hnil & Hne).
    exists (k1 + k2), (all1 ++ all2),
      (fromBytes (firstn len (pending st ++ all1)) :: outs), st2.
    split; [exact (drawn_app source batchSize k1 k2 _ _ _ _ _ Hd1 Hd2) |].
    split.
    { cbn [serve]. unfold bind at 1. rewrite Hres. unfold bind.
      rewrite Hserve. reflexivity. }
    split; [exact Hok2 |].
    change (list_sum (len :: lens)) with (len + list_sum lens).
    split; [lia |]. split; [discriminate |].
    intros _. destruct lens as [| l lens'].
    + rewrite (Hnil eq_refl). exact Hp1.
    + apply Hne. discriminate.
Qed.

End BatchCount.

(** X14. The adapter refills eagerly.  Started fresh and asked for the
    lengths [lens] (at least one request), it has drawn exactly
    [total / batchSize + 1] batches from the base source, where [total] is
    the number of bytes asked for: it draws the next batch as soon as the
    current one is used up, before any byte of it is asked for (a first
    request for exactly [batchSize] bytes draws two batches). *)
Theorem batchedRandomSource_batch_count :
  forall (St : Type) (Inv : St -> Prop) (source : RandomSource St)
         (batchSize : nat) (s0 : St) (lens : list nat),
    1 <= batchSize ->
    (forall s, Inv s ->
       exists u s', source batchSize s = Ret (u, s')
                    /\ wfView u /\ byteLength u = batchSize /\ Inv s') ->
    Inv s0 ->
    lens <> [] ->
    exists outs st' all,
      serve (batchedRandomSource source batchSize) lens (batchedInit s0)
      = Ret (outs, st')
      /\ drawn source batchSize (list_sum lens / batchSize + 1) s0
         = Ret (all, baseState st').
Proof.
  intros St Inv source batchSize s0 lens HB Hbase Hs0 Hne.
  destruct (serve_count Inv source batchSize HB Hbase lens (batchedInit s0)
              (batchedOk_init Inv batchSize s0 Hs0))
    as (k & all & outs & st' & Hd & Hserve & _ & Hc & _ & Hp).
  specialize (Hp Hne). cbn [pending batchedInit batchBuffer List.length] in Hc.
  exists outs, st', all. split; [exact Hserve |].
  replace (list_sum lens / batchSize + 1) with k; [exact Hd |].
  destruct k as [| k]; [lia |].
  replace (S k) with (k + 1) by lia. f_equal.
  apply (Nat.div_unique (list_sum lens) batchSize k
           (batchSize - List.length (pending st'))); [lia | nia].
Qed.

Lemma batchedRandomSource_batch_count_witness :
  exists outs st' all,
    serve (batchedRandomSource cyclic 4) [4] (batchedInit 0) = Ret (outs, st')
    /\ drawn cyclic 4 (list_sum [4] / 4 + 1) 0 = Ret (all, baseState st').
Proof.
  apply (batchedRandomSource_batch_count nat (fun _ => True) cyclic 4 0 [4]).
  - lia.
  - apply streamSource_batches.
  - exact I.
  - discriminate.
Defined.

Lemma batchedLoop_stuck {St} (source : RandomSource St) (len : nat) :
  forall fuel pos offset buf result s r,
    pos < len ->
    batchedLoop source 0 fuel len pos offset buf result s <> Ret r.
Proof.
  induction fuel as [| fuel IH]; intros pos offset buf result s r Hpos;
    cbn [batchedLoop]; rewrite (proj2 (Nat.ltb_lt pos len) Hpos);
    [discriminate |].
  cbn [Nat.sub]. rewrite Nat.min_0_r, !Nat.add_0_r.
  destruct (set result (subarray buf offset offset) pos) as [result' | |];
    try discriminate.
  destruct (offset =? 0).
  - unfold bind. destruct (source 0 s) as [[buf' s'] | |]; try discriminate.
    apply IH. exact Hpos.
  - apply IH. exact Hpos.
Qed.

(** X15. With a batch size of zero the adapter never answers a request for
    one byte or more: its loop copies nothing and makes no progress,
    whatever the base source does and however long it runs. *)
Theorem batchedRandomSource_zero_batchSize :
  forall (St : Type) (source : RandomSource St) (len : nat),
    1 <= len ->
    (forall fuel offset buf s r,
       batchedLoop source 0 fuel len 0 offset buf (newUint8Array len) s
       <> Ret r)
    /\ (forall st r, batchedRandomSource source 0 len st <> Ret r).
Proof.
  intros St source len Hlen. split.
  - intros fuel offset buf s r. apply batchedLoop_stuck. lia.
  - intros st r. unfold batchedRandomSource.
    destruct (match batchBuffer st with
              | Some b => Ret (b, baseState st)
              | None => source 0 (baseState st)
              end) as [[b s] | |]; try discriminate.
    destruct (batchedLoop source 0 len len 0 (batchOffset st) b
                (newUint8Array len) s) as [[[[result b'] o'] s'] | |] eqn:E;
      try discriminate.
    exfalso. revert E. apply batchedLoop_stuck. lia.
Qed.

Lemma batchedRandomSource_zero_batchSize_witness :
  ~ exists r, batchedRandomSource cyclic 0 1 (batchedInit 0) = Ret r.
Proof.
  intros (r & H). revert H.
  apply (proj2 (batchedRandomSource_zero_batchSize nat cyclic 1 (le_n 1))).
Defined.

Lemma seq_firstn_skipn (pos len n : nat) :
  len <= n ->
  firstn len (seq pos n) = seq pos len
  /\ skipn len (seq pos n) = seq (pos + len) (n - len).
Proof.
  intros H. split; [| apply skipn_seq].
  replace n with (len + (n - len)) by lia. rewrite seq_app, firstn_app.
  rewrite length_seq, Nat.sub_diag, firstn_0, app_nil_r.
  transitivity (firstn (List.length (seq pos len)) (seq pos len));
    [rewrite length_seq; reflexivity | apply firstn_all].
Qed.

Section Replay.
Context {St : Type} (Inv : nat -> St -> Prop) (source : RandomSource St).
Variables (batchSize : nat) (f : nat -> byte).
Hypothesis HbatchSize : 1 <= batchSize.

(** The [j]-th batch of the base source holds the bytes of [f] at the
    positions from [j * batchSize] on. *)
Hypothesis Hnth : forall j s, Inv j s ->
  exists s', source batchSize s
             = Ret (fromBytes (map f (seq (j * batchSize) batchSize)), s')
             /\ Inv (S j) s'.

Lemma numbered_base :
  forall s, (exists j, Inv j s) ->
    exists u s', source batchSize s = Ret (u, s')
                 /\ wfView u /\ byteLength u = batchSize
                 /\ exists j, Inv j s'.
Proof.
  intros s (j & Hj). destruct (Hnth j s Hj) as (s' & Hs & Hj').
  eexists. exists s'. split; [exact Hs |].
  unfold wfView. cbn. rewrite length_map, length_seq. eauto.
Qed.

Lemma drawn_numbered :
  forall k j s,
    Inv j s ->
    exists s', drawn source batchSize k s
               = Ret (map f (seq (j * batchSize) (k * batchSize)), s')
               /\ Inv (j + k) s'.
Proof.
  induction k as [| k IH]; intros j s Hj.
  - exists s. rewrite Nat.add_0_r. split; [reflexivity | exact Hj].
  - destruct (Hnth j s Hj) as (s1 & Hs1 & Hj1).
    destruct (IH (S j) s1 Hj1) as (s' & Hd & Hj').
    exists s'. cbn [drawn]. unfold bind. rewrite Hs1, Hd. unfold ret.
    rewrite elements_fromBytes, <- map_app.
    replace (S j * batchSize) with (j * batchSize + batchSize) by (cbn; lia).
    rewrite <- seq_app.
    replace (S k * batchSize) with (batchSize + k * batchSize)
      by (cbn; lia).
    split; [reflexivity |].
    replace (j + S k) with (S j + k) by lia. exact Hj'.
Qed.

Lemma replays_sameBytes :
  sameBytes (replays Inv batchSize f) (streamSource f)
    (batchedRandomSource source batchSize).
Proof.
  intros len pos st ([Hinv Hnone] & j & Hj & Hle & Hpend).
  destruct (batchedRandomSource_spec _ source batchSize HbatchSize
              numbered_base len st Hinv Hnone)
    as (k & all & st' & Hd & Hinv' & Hsome & Hres & Hleft & Hlong).
  destruct (drawn_numbered k j (baseState st) Hj) as (s' & Hd' & Hj').
  rewrite Hd in Hd'. injection Hd' as Hall Hs'.
  assert (Hcat : pending st ++ all
                 = map f (seq pos ((j + k) * batchSize - pos))).
  { rewrite Hpend, Hall, <- map_app. f_equal.
    replace ((j + k) * batchSize - pos)
      with ((j * batchSize - pos) + k * batchSize) by nia.
    rewrite seq_app. do 2 f_equal. lia. }
  rewrite Hcat in *. rewrite length_map, length_seq in Hlong.
  destruct (seq_firstn_skipn pos len ((j + k) * batchSize - pos)
              ltac:(lia)) as [Hfirst Hskip].
  unfold streamSource. rewrite Hres. cbn [sim].
  split; [rewrite firstn_map, Hfirst; reflexivity |].
  split.
  - split; [exact Hinv' |]. destruct Hsome as (b & Eb). rewrite Eb.
    discriminate.
  - exists (j + k). rewrite Hs'. split; [exact Hj' |].
    split; [lia |].
    rewrite Hleft, skipn_map, Hskip. do 2 f_equal. lia.
Qed.

Lemma replays_init (s0 : St) :
  Inv 0 s0 -> replays Inv batchSize f 0 (batchedInit s0).
Proof.
  intros H0. split.
  - apply batchedOk_init. eauto.
  - exists 0. split; [exact H0 |]. split; [apply Nat.le_0_l | reflexivity].
Qed.

End Replay.

(** X16. Batching is transparent over a source that reads a fixed sequence
    of bytes: for every batch size of at least one, the adapter answers
    every sequence of requests with the very arrays the sequence read
    directly gives. *)
Theorem batching_transparent :
  forall (f : nat -> byte) (batchSize : nat),
    1 <= batchSize ->
    exists R,
      R 0 (batchedInit 0)
      /\ sameBytes R (streamSource f)
           (batchedRandomSource (streamSource f) batchSize).
Proof.
  intros f batchSize HB.
  exists (replays (fun j s => s = j * batchSize) batchSize f).
  split; [apply replays_init; reflexivity |].
  apply (replays_sameBytes _ _ _ _ HB).
  intros j s ->. eexists. split; [reflexivity |]. cbn. lia.
Qed.

Lemma batching_transparent_witness :
  exists R,
    R 0 (batchedInit 0)
    /\ sameBytes R cyclic (batchedRandomSource cyclic 1024).
Proof.
  apply (batching_transparent (fun i => toUint8 (N.of_nat i)) 1024). lia.
Defined.

Lemma seq_add (a s n : nat) : seq (a + s) n = map (Nat.add a) (seq s n).
Proof.
  revert s. induction n as [| n IH]; intros s; [reflexivity |].
  cbn [seq map]. f_equal. rewrite <- IH. f_equal. lia.
Qed.

Lemma toUint8_mod (a b : nat) :
  a mod 256 = b mod 256 -> toUint8 (N.of_nat a) = toUint8 (N.of_nat b).
Proof.
  intros H. unfold toUint8.
  change 256%N with (N.of_nat 256). rewrite <- !Nnat.Nat2N.inj_mod, H.
  reflexivity.
Qed.

(** X17. Over the stateless source of the test-suite, whose every answer
    starts again at the byte zero, the adapter replays its batch for ever:
    the byte at position [i] of its output is [(i mod batchSize) mod 256].
    When the batch size is a multiple of 256, as for [createSource], the
    output is the sequence 0, 1, ..., 255, 0, 1, ... *)
Theorem stable_batches_replayed :
  forall (batchSize : nat),
    1 <= batchSize ->
    exists R,
      R 0 (batchedInit tt)
      /\ sameBytes R
           (streamSource (fun i => toUint8 (N.of_nat (i mod batchSize))))
           (batchedRandomSource stableRandomSource batchSize)
      /\ (batchSize mod 256 = 0 ->
          sameBytes R cyclic
            (batchedRandomSource stableRandomSource batchSize)).
Proof.
  intros batchSize HB.
  set (f := fun i => toUint8 (N.of_nat (i mod batchSize))).
  exists (replays (fun _ (_ : unit) => True) batchSize f).
  assert (Hsame : sameBytes (replays (fun _ (_ : unit) => True) batchSize f)
                    (streamSource f)
                    (batchedRandomSource stableRandomSource batchSize)).
  { apply (replays_sameBytes _ _ _ _ HB).
    intros j [] _. exists tt. split; [| exact I].
    unfold stableRandomSource, ret. do 3 f_equal.
    rewrite <- (Nat.add_0_r (j * batchSize)), seq_add, map_map.
    apply map_ext_in. intros i Hi. apply in_seq in Hi. unfold f.
    do 2 f_equal. rewrite Nat.add_comm, Nat.Div0.mod_add.
    symmetry. apply Nat.mod_small. lia. }
  split; [apply replays_init; exact I |].
  split; [exact Hsame |].
  intros Hmul len pos st HR. specialize (Hsame len pos st HR).
  unfold cyclic, streamSource in *.
  erewrite map_ext; [exact Hsame |].
  intros i. unfold f. apply toUint8_mod.
  assert (E : batchSize = 256 * (batchSize / 256)).
  { pose proof (Nat.div_mod_eq batchSize 256). lia. }
  rewrite E at 1. rewrite Nat.Div0.mod_mul_r.
  rewrite (Nat.mul_comm 256), Nat.Div0.mod_add.
  symmetry. apply Nat.Div0.mod_mod.
Qed.

Lemma stable_batches_replayed_witness :
  exists R,
    R 0 (batchedInit tt)
    /\ sameBytes R
         (streamSource (fun i => toUint8 (N.of_nat (i mod 1024))))
         createSource
    /\ (1024 mod 256 = 0 -> sameBytes R cyclic createSource).
Proof.
  apply (stable_batches_replayed 1024). lia.
Defined.

(** ** The shuffle of [pattern] *)

Lemma insertSorted_sorted (randoms : list Z) (a : nat) (l : list nat) :
  StronglySorted (fun x y => (nth x randoms 0 <= nth y randoms 0)%Z) l ->
  StronglySorted (fun x y => (nth x randoms 0 <= nth y randoms 0)%Z)
    (insertSorted randoms a l).
Proof.
  induction 1 as [| b l Hl IH Hb]; cbn [insertSorted].
  - constructor; constructor.
  - destruct (Z.leb_spec (nth a randoms 0%Z) (nth b randoms 0%Z)) as [Hle | Hgt].
    + constructor; [constructor; assumption |].
      constructor; [exact Hle |].
      eapply Forall_impl; [| exact Hb]. cbn. intros x Hx. lia.
    + constructor; [exact IH |].
      apply (Permutation_Forall (Permutation_sym (insertSorted_perm randoms a l))).
      constructor; [lia | exact Hb].
Qed.

Lemma insertSorted_stable (randoms : list Z) (z : Z) (a : nat) (l : list nat) :
  filter (fun p => (nth p randoms 0 =? z)%Z) (insertSorted randoms a l)
  = filter (fun p => (nth p randoms 0 =? z)%Z) (a :: l).
Proof.
  induction l as [| b l IH]; [reflexivity |].
  cbn [insertSorted].
  destruct (Z.leb_spec (nth a randoms 0%Z) (nth b randoms 0%Z)) as [Hle | Hgt];
    [reflexivity |].
  cbn [filter] in *. rewrite IH.
  destruct (Z.eqb_spec (nth a randoms 0%Z) z), (Z.eqb_spec (nth b randoms 0%Z) z);
    try reflexivity. lia.
Qed.

(** X18. The shuffle of [pattern] is a stable sort of the positions by their
    draws: the positions come out in ascending order of their draws, none
    is lost or repeated, and positions with equal draws keep their order. *)
Theorem shuffle_sorted_stable :
  forall (randoms : list Z) (positions : list nat),
    StronglySorted (fun x y => (nth x randoms 0 <= nth y randoms 0)%Z)
      (sortPositions randoms positions)
    /\ Permutation (sortPositions randoms positions) positions
    /\ forall z,
         filter (fun p => (nth p randoms 0 =? z)%Z)
           (sortPositions randoms positions)
         = filter (fun p => (nth p randoms 0 =? z)%Z) positions.
Proof.
  intros randoms positions.
  split; [| split; [apply sortPositions_perm |]].
  - induction positions as [| a l IH]; cbn; [constructor |].
    apply insertSorted_sorted. exact IH.
  - intros z. induction positions as [| a l IH]; [reflexivity |].
    change (sortPositions randoms (a :: l))
      with (insertSorted randoms a (sortPositions randoms l)).
    rewrite insertSorted_stable. cbn [filter]. rewrite IH. reflexivity.
Qed.
